(** * The ingest muxer of gravwell/ingest: tag translation, the emergency
    queue and the muxer's tag table, embedded from [muxer.go].

    Go values are modelled as follows.
    - [int] lengths and slice indices are [nat] (they are never negative in
      the code below); [entry.EntryTag] is an unsigned integer, a value of
      [N], with the conversion [entry.EntryTag(i)] written out as a
      reduction modulo the size of the type.
    - A pointer that may be [nil] is an [option]; a slice is a [list]
      ([len(s) == 0] covers both the nil and the empty slice).
    - A run-time panic (index out of range) is the result [None] of a
      function into [option].
    - A call into a collaborator (connection, cache) is a field of the
      record that stands for it, and the calls made are returned as a log.
    - A mutex only serialises callers; operations are modelled atomically. *)

From stdpp Require Import base decidable option numbers list strings gmap.

Local Open Scope nat_scope.

(** ** The entry package (outside these sources) *)

(** Modelled from the spec: [entry.EntryTag] and [entry.GravwellTagId] are
    declared in the entry package, which is not part of these sources.  Tag
    identifiers are "dense small integers" with one reserved "Gravwell" id;
    the width of the unsigned type and the reserved value are parameters. *)
Class EntryPackage := {
  tagModulus : N;
  GravwellTagId : N
}.

(** [type EntryTag]: an unsigned integer below [tagModulus]. *)
Abbreviation EntryTag := N (only parsing).

(** [type tagTrans []entry.EntryTag] *)
Abbreviation tagTrans := (list EntryTag) (only parsing).

(** The 16-bit instance, used to run the definitions on concrete inputs. *)
Definition uint16Tags : EntryPackage :=
  {| tagModulus := 65536; GravwellTagId := 65535 |}.

(** [entry.Entry]: timestamp, tag, source address, payload. *)
Record Entry := {
  TS : Z;
  Tag : EntryTag;
  SRC : list N;
  Data : string
}.

(** ** Errors *)

Inductive error :=
| ErrAllConnsDown
| ErrNotRunning
| ErrNotReady
| ErrTagNotFound
| ErrTagMapInvalid
| ErrNoTargets
| ErrConnectionTimeout
| ErrSyncTimeout
| ErrEmptyAuth
| ErrEmergencyListOverflow
| ErrTimeout
| ErrWriteTimeout
| errorsNew (msg : string).

#[global] Instance error_eq_dec : EqDecision error.
Proof. solve_decision. Defined.

Definition errOutOfSync : error :=
  errorsNew "Cannot register tag, local tag out of sync with tag translator".

Section TagTranslator.
Context `{EntryPackage}.

(** [entry.EntryTag(i)] for a slice index [i]. *)
Definition toEntryTag (i : nat) : EntryTag := (N.of_nat i mod tagModulus)%N.

(** [func (tt tagTrans) Translate(t)]; [None] is the index-out-of-range
    panic of [tt[0]] on an empty translator. *)
Definition Translate (tt : tagTrans) (t : EntryTag) : option (EntryTag * bool) :=
  if decide (t = GravwellTagId) then Some (t, true)
  else if decide (length tt <= N.to_nat t) then
    r ← tt !! 0; Some (r, false)
  else
    r ← tt !! N.to_nat t; Some (r, true).

(** [func (tt *tagTrans) RegisterTag(local, remote)]: the translator after
    the call and the error returned. *)
Definition RegisterTag (tt : tagTrans) (local remote : EntryTag)
  : tagTrans * option error :=
  if decide (N.to_nat local ≠ length tt) then (tt, Some errOutOfSync)
  else (tt ++ [remote], None).

(** The loop [for i := range tt { if tt[i] == t { return i } }] of
    [Reverse], started at index [i]. *)
Fixpoint reverseScan (tt : tagTrans) (i : nat) (t : EntryTag) : option nat :=
  match tt with
  | [] => None
  | x :: rest => if decide (x = t) then Some i else reverseScan rest (S i) t
  end.

(** [func (tt tagTrans) Reverse(t)] *)
Definition Reverse (tt : tagTrans) (t : EntryTag) : EntryTag :=
  if decide (t = GravwellTagId) then t
  else match reverseScan tt 0 t with
       | Some i => toEntryTag i
       | None => 0%N
       end.

End TagTranslator.

(** ** The emergency queue *)

Definition maxEmergencyListSize : nat := 256.

Record emStruct := {
  em_e : option Entry;
  em_ents : list (option Entry)
}.

(** [emergencyQueue]: the [container/list] behind the mutex, front first. *)
Record emergencyQueue := { lst : list emStruct }.

Definition newEmergencyQueue : emergencyQueue := {| lst := [] |}.

(** [func (eq *emergencyQueue) push(e, ents)] *)
Definition push (eq : emergencyQueue) (e : option Entry)
    (ents : list (option Entry)) : emergencyQueue * option error :=
  if bool_decide (e = None) && bool_decide (length ents = 0) then (eq, None)
  else
    let ems := {| em_e := e; em_ents := ents |} in
    if decide (maxEmergencyListSize < length (lst eq))
    then (eq, Some ErrEmergencyListOverflow)
    else ({| lst := lst eq ++ [ems] |}, None).

(** [func (eq *emergencyQueue) pop()]: the queue after the call and
    [(e, ents, ok)]. *)
Definition pop (eq : emergencyQueue)
  : emergencyQueue * (option Entry * list (option Entry) * bool) :=
  match lst eq with
  | [] => (eq, (None, [], false))
  | elm :: rest => ({| lst := rest |}, (em_e elm, em_ents elm, true))
  end.

(** ** Collaborators, referenced by interface *)

(** [IngestConnection]: what the calls the muxer makes on a connection
    return.  [conn_NegotiateTag] is [NegotiateTag(name)], [conn_GetTag] is
    [GetTag(name)] and [conn_Sync] is [Sync()]. *)
Record IngestConnection := {
  conn_NegotiateTag : string -> error + EntryTag;
  conn_GetTag : string -> option EntryTag;
  conn_Sync : option error
}.

(** [IngestCache]: [Count()], [GetTagList()] and
    [UpdateStoredTagList(tags)]. *)
Record IngestCache := {
  cache_Count : nat;
  cache_GetTagList : error + list string;
  cache_UpdateStoredTagList : list string -> option error
}.

(** The calls made on the connection in slot [k] of [igst]. *)
Inductive ConnCall :=
| CallNegotiateTag (k : nat) (name : string)
| CallClose (k : nat)
| CallSync (k : nat).

(** ** Channels *)

(** A buffered channel: [make(chan A, chan_cap)] and the buffered items,
    oldest first. *)
Record chan (A : Type) := { chan_cap : nat; chan_buf : list A }.
Arguments chan_cap {A} _.
Arguments chan_buf {A} _.

Definition make_chan {A : Type} (n : nat) : chan A :=
  {| chan_cap := n; chan_buf := [] |}.

(** [ch <- x]: [None] when the buffer is full and the send has to wait. *)
Definition chan_send {A : Type} (ch : chan A) (x : A) : option (chan A) :=
  if decide (length (chan_buf ch) < chan_cap ch)
  then Some {| chan_cap := chan_cap ch; chan_buf := chan_buf ch ++ [x] |}
  else None.

(** The result of a call that may wait on a channel. *)
Inductive Outcome (A : Type) :=
| Done (a : A)
| Blocked.
Arguments Done {A} a.
Arguments Blocked {A}.

(** ** The muxer *)

Inductive muxState := empty | running | closed.

#[global] Instance muxState_eq_dec : EqDecision muxState.
Proof. solve_decision. Defined.

Definition defaultChannelSize : Z := 64.

Record Target := { Address : string; Secret : string }.

(** [IngestMuxer], without the fields that carry keys, logging, identity,
    rate limiting and the synchronisation primitives. *)
Record IngestMuxer := {
  connHot : Z;
  connDead : Z;
  igst : list (option IngestConnection);
  tagTranslators : list (option tagTrans);
  dests : list Target;
  tags : list string;
  tagMap : gmap string EntryTag;
  eChan : chan Entry;
  bChan : chan (list (option Entry));
  equeue : emergencyQueue;
  state : muxState;
  cacheEnabled : bool;
  cache : option IngestCache;
  cacheFileBacked : bool;
  cacheRunning : bool
}.

(** [MuxerConfig], the fields [newIngestMuxer] reads for the state above;
    [CacheFileBackingLocation] is [CacheConfig.FileBackingLocation]. *)
Record MuxerConfig := {
  Destinations : list Target;
  Tags : list string;
  ChannelSize : Z;
  EnableCache : bool;
  CacheFileBackingLocation : string
}.

Definition set_tags (im : IngestMuxer) (ts : list string)
    (m : gmap string EntryTag) : IngestMuxer :=
  {| connHot := connHot im; connDead := connDead im; igst := igst im;
     tagTranslators := tagTranslators im; dests := dests im;
     tags := ts; tagMap := m; eChan := eChan im; bChan := bChan im;
     equeue := equeue im; state := state im;
     cacheEnabled := cacheEnabled im; cache := cache im;
     cacheFileBacked := cacheFileBacked im; cacheRunning := cacheRunning im |}.

Definition set_conns (im : IngestMuxer) (cs : list (option IngestConnection))
    (tts : list (option tagTrans)) : IngestMuxer :=
  {| connHot := connHot im; connDead := connDead im; igst := cs;
     tagTranslators := tts; dests := dests im;
     tags := tags im; tagMap := tagMap im; eChan := eChan im;
     bChan := bChan im; equeue := equeue im; state := state im;
     cacheEnabled := cacheEnabled im; cache := cache im;
     cacheFileBacked := cacheFileBacked im; cacheRunning := cacheRunning im |}.

Definition set_eChan (im : IngestMuxer) (ch : chan Entry) : IngestMuxer :=
  {| connHot := connHot im; connDead := connDead im; igst := igst im;
     tagTranslators := tagTranslators im; dests := dests im;
     tags := tags im; tagMap := tagMap im; eChan := ch; bChan := bChan im;
     equeue := equeue im; state := state im;
     cacheEnabled := cacheEnabled im; cache := cache im;
     cacheFileBacked := cacheFileBacked im; cacheRunning := cacheRunning im |}.

Definition set_bChan (im : IngestMuxer) (ch : chan (list (option Entry)))
  : IngestMuxer :=
  {| connHot := connHot im; connDead := connDead im; igst := igst im;
     tagTranslators := tagTranslators im; dests := dests im;
     tags := tags im; tagMap := tagMap im; eChan := eChan im; bChan := ch;
     equeue := equeue im; state := state im;
     cacheEnabled := cacheEnabled im; cache := cache im;
     cacheFileBacked := cacheFileBacked im; cacheRunning := cacheRunning im |}.

Definition set_counters (im : IngestMuxer) (hot dead : Z) : IngestMuxer :=
  {| connHot := hot; connDead := dead; igst := igst im;
     tagTranslators := tagTranslators im; dests := dests im;
     tags := tags im; tagMap := tagMap im; eChan := eChan im;
     bChan := bChan im; equeue := equeue im; state := state im;
     cacheEnabled := cacheEnabled im; cache := cache im;
     cacheFileBacked := cacheFileBacked im; cacheRunning := cacheRunning im |}.

(** Wrap-around of [int32] arithmetic. *)
Definition wrapInt32 (z : Z) : Z :=
  ((z + 2147483648) mod 4294967296 - 2147483648)%Z.

(** [int32(n)] for a length [n]. *)
Definition toInt32 (n : nat) : Z := wrapInt32 (Z.of_nat n).

(** The counter updates of [goHot()] and [goDead()]; the signals they send
    to the cache task and on [upChan] are not part of the state above. *)
Definition goHot (im : IngestMuxer) : IngestMuxer :=
  set_counters im (wrapInt32 (connHot im + 1)) (wrapInt32 (connDead im - 1)).

Definition goDead (im : IngestMuxer) : IngestMuxer :=
  set_counters im (wrapInt32 (connHot im - 1)) (wrapInt32 (connDead im + 1)).

Section Muxer.
Context `{EntryPackage}.

(** [CheckTag] lives in another file of the package; it is a parameter:
    [None] when the name is accepted, the error otherwise. *)
Variable CheckTag : string -> option error.

(** The loop [for i, v := range tags { tagMap[v] = entry.EntryTag(i) }],
    started at index [i]. *)
Fixpoint assignTags (i : nat) (ts : list string) (m : gmap string EntryTag)
  : gmap string EntryTag :=
  match ts with
  | [] => m
  | v :: rest => assignTags (S i) rest (<[v := toEntryTag i]> m)
  end.

(** The loop labelled [tagLoop] of [newIngestMuxer]: every configured tag
    that is not yet among the cached tags is appended to them. *)
Definition mergeCachedTags (ctags localTags : list string) : list string :=
  fold_left (fun ct lt => if bool_decide (lt ∈ ct) then ct else ct ++ [lt])
            localTags ctags.

(** The tag list [newIngestMuxer] settles on: the configured tags, or with
    a non-empty cache that stores tags, the merged list. *)
Definition initialTags (c : MuxerConfig) (ch : IngestCache)
  : error + list string :=
  if decide (0 < cache_Count ch) then
    match cache_GetTagList ch with
    | inl err => inl err
    | inr ctags =>
        if decide (0 < length ctags)
        then inr (mergeCachedTags ctags (Tags c))
        else inr (Tags c)
    end
  else inr (Tags c).

Definition channelSize (c : MuxerConfig) : nat :=
  if decide (ChannelSize c <= 0)%Z then Z.to_nat defaultChannelSize
  else Z.to_nat (ChannelSize c).

Definition freshMuxer (c : MuxerConfig) (localTags : list string)
    (ch : option IngestCache) : IngestMuxer :=
  {| connHot := 0; connDead := 0; igst := []; tagTranslators := [];
     dests := Destinations c;
     tags := localTags; tagMap := assignTags 0 localTags ∅;
     eChan := make_chan (channelSize c); bChan := make_chan (channelSize c);
     equeue := newEmergencyQueue; state := empty;
     cacheEnabled := EnableCache c; cache := ch;
     cacheFileBacked := bool_decide (CacheFileBackingLocation c ≠ "");
     cacheRunning := false |}.

(** [newIngestMuxer(c)]; [NewIngestCache] is what [NewIngestCache
    (c.CacheConfig)] returns. *)
Definition newIngestMuxer (c : MuxerConfig)
    (NewIngestCache : error + IngestCache) : error + IngestMuxer :=
  if EnableCache c then
    match NewIngestCache with
    | inl err => inl err
    | inr ch =>
        match initialTags c ch with
        | inl err => inl err
        | inr localTags =>
            match cache_UpdateStoredTagList ch localTags with
            | Some err => inl err
            | None => inr (freshMuxer c localTags (Some ch))
            end
        end
    end
  else inr (freshMuxer c (Tags c) None).

(** [Start()], without the tasks it spawns. *)
Definition Start (im : IngestMuxer) : IngestMuxer * option error :=
  if bool_decide (state im ≠ empty) || bool_decide (length (igst im) ≠ 0)
  then (im, Some ErrNotReady)
  else
    ({| connHot := connHot im; connDead := toInt32 (length (dests im));
        igst := replicate (length (dests im)) None;
        tagTranslators := replicate (length (dests im)) None;
        dests := dests im; tags := tags im; tagMap := tagMap im;
        eChan := eChan im; bChan := bChan im; equeue := equeue im;
        state := running;
        cacheEnabled := cacheEnabled im; cache := cache im;
        cacheFileBacked := cacheFileBacked im;
        cacheRunning := if cacheEnabled im then true else cacheRunning im |},
     None).

(** The loop [for k, v := range im.igst] of [NegotiateTag], from slot [k]
    on: the translators after it and the calls made on connections.
    [None] is the panic of [im.tagTranslators[k]] out of range. *)
Fixpoint negotiateConns (name : string) (tg : EntryTag) (k : nat)
    (conns : list (option IngestConnection)) (tts : list (option tagTrans))
  : option (list (option tagTrans) * list ConnCall) :=
  match conns with
  | [] => Some (tts, [])
  | None :: rest => negotiateConns name tg (S k) rest tts
  | Some v :: rest =>
      match conn_NegotiateTag v name with
      | inl _ =>
          match negotiateConns name tg (S k) rest tts with
          | Some (tts', calls) =>
              Some (tts', CallNegotiateTag k name :: CallClose k :: calls)
          | None => None
          end
      | inr remoteTag =>
          match tts !! k with
          | None => None
          | Some (Some tr) =>
              let (tt', err) := RegisterTag tr tg remoteTag in
              match negotiateConns name tg (S k) rest (<[k := Some tt']> tts) with
              | Some (tts', calls) =>
                  Some (tts',
                        CallNegotiateTag k name ::
                        (if err is Some _ then [CallClose k] else []) ++ calls)
              | None => None
              end
          | Some None =>
              match negotiateConns name tg (S k) rest tts with
              | Some (tts', calls) =>
                  Some (tts', CallNegotiateTag k name :: CallClose k :: calls)
              | None => None
              end
          end
      end
  end.

(** What [NegotiateTag] leaves behind and returns. *)
Record NegotiateResult := {
  nr_mux : IngestMuxer;
  nr_tg : EntryTag;
  nr_err : option error;
  nr_calls : list ConnCall
}.

(** [NegotiateTag(name)]; [None] is a panic. *)
Definition NegotiateTag (im : IngestMuxer) (name : string)
  : option NegotiateResult :=
  match CheckTag name with
  | Some err =>
      Some {| nr_mux := im; nr_tg := 0%N; nr_err := Some err; nr_calls := [] |}
  | None =>
      match tagMap im !! name with
      | Some tag =>
          Some {| nr_mux := im; nr_tg := tag; nr_err := None; nr_calls := [] |}
      | None =>
          let tags' := tags im ++ [name] in
          let tagMap' := assignTags 0 tags' (tagMap im) in
          let im1 := set_tags im tags' tagMap' in
          let tg := default 0%N (tagMap' !! name) in
          let negotiate :=
            match negotiateConns name tg 0 (igst im1) (tagTranslators im1) with
            | Some (tts, calls) =>
                Some {| nr_mux := set_conns im1 (igst im1) tts; nr_tg := tg;
                        nr_err := None; nr_calls := calls |}
            | None => None
            end in
          if cacheEnabled im && cacheFileBacked im then
            match cache im with
            | None => None
            | Some ch =>
                match cache_UpdateStoredTagList ch tags' with
                | Some err =>
                    Some {| nr_mux := im1; nr_tg := 0%N; nr_err := Some err;
                            nr_calls := [] |}
                | None => negotiate
                end
            end
          else negotiate
      end
  end.

(** [WriteEntry(e)] *)
Definition WriteEntry (im : IngestMuxer) (e : option Entry)
  : Outcome (IngestMuxer * option error) :=
  match e with
  | None => Done (im, None)
  | Some e' =>
      let runok := bool_decide (state im = running) in
      if negb runok then Done (im, Some ErrNotRunning)
      else match chan_send (eChan im) e' with
           | Some ch => Done (set_eChan im ch, None)
           | None => Blocked
           end
  end.

(** [WriteBatch(b)] *)
Definition WriteBatch (im : IngestMuxer) (b : list (option Entry))
  : Outcome (IngestMuxer * option error) :=
  if decide (length b = 0) then Done (im, None)
  else
    let runok := bool_decide (state im = running) in
    if negb runok then Done (im, Some ErrNotRunning)
    else match chan_send (bChan im) b with
         | Some ch => Done (set_bChan im ch, None)
         | None => Blocked
         end.

End Muxer.

(** [im'] is [im] in every field other than the two channels. *)
Definition same_but_channels (im im' : IngestMuxer) : Prop :=
  connHot im' = connHot im /\ connDead im' = connDead im /\
  igst im' = igst im /\ tagTranslators im' = tagTranslators im /\
  dests im' = dests im /\ tags im' = tags im /\ tagMap im' = tagMap im /\
  equeue im' = equeue im /\ state im' = state im /\
  cacheEnabled im' = cacheEnabled im /\ cache im' = cache im /\
  cacheFileBacked im' = cacheFileBacked im /\
  cacheRunning im' = cacheRunning im.

(** ** Sync *)

(** What one pass through the waiting loop of [SyncContext] observes:
    [ctx.Err()], then after the 10ms sleep [im.connHot] and whether
    [time.Since(ts) > to], and the lengths of the two channels when the
    loop condition is evaluated again.  The channels are emptied by the
    writer tasks while [SyncContext] sleeps, so these are inputs. *)
Record SyncTick := {
  tick_ctxErr : option error;
  tick_connHot : Z;
  tick_expired : bool;
  tick_eLen : nat;
  tick_bLen : nat
}.

Inductive WaitResult :=
| Drained
| Exit (err : error)
| StillWaiting.

(** The loop [for len(im.eChan) > 0 || len(im.bChan) > 0 { ... }];
    [StillWaiting] when the observations run out before the loop ends. *)
Fixpoint waitChannels (eLen bLen : nat) (ticks : list SyncTick) : WaitResult :=
  if bool_decide (0 < eLen) || bool_decide (0 < bLen) then
    match ticks with
    | [] => StillWaiting
    | tk :: rest =>
        match tick_ctxErr tk with
        | Some err => Exit err
        | None =>
            if bool_decide (tick_connHot tk = 0%Z) then Exit ErrAllConnsDown
            else if tick_expired tk then Exit ErrTimeout
            else waitChannels (tick_eLen tk) (tick_bLen tk) rest
        end
    end
  else Drained.

(** The loop [for _, v := range im.igst] of [SyncContext], from slot [k]
    on: the number of connections that report [ErrNotRunning] and the
    [Sync] calls made. *)
Fixpoint syncConns (k : nat) (conns : list (option IngestConnection))
  : nat * list ConnCall :=
  match conns with
  | [] => (0, [])
  | None :: rest => syncConns (S k) rest
  | Some v :: rest =>
      let (count, calls) := syncConns (S k) rest in
      ((if bool_decide (conn_Sync v = Some ErrNotRunning) then S count else count),
       CallSync k :: calls)
  end.

Inductive SyncResult :=
| SyncReturns (err : option error) (calls : list ConnCall)
| SyncWaits.

(** [SyncContext(ctx, to)]; the muxer itself is only read. *)
Definition SyncContext (im : IngestMuxer) (ticks : list SyncTick) : SyncResult :=
  if bool_decide (connHot im = 0%Z) && negb (cacheRunning im)
  then SyncReturns (Some ErrAllConnsDown) []
  else
    match waitChannels (length (chan_buf (eChan im)))
                       (length (chan_buf (bChan im))) ticks with
    | StillWaiting => SyncWaits
    | Exit err => SyncReturns (Some err) []
    | Drained =>
        let (count, calls) := syncConns 0 (igst im) in
        if decide (count = length (igst im))
        then SyncReturns (Some ErrAllConnsDown) calls
        else SyncReturns None calls
    end.

(** [Sync(to)] is [SyncContext(context.Background(), to)]: the background
    context never reports an error. *)
Definition backgroundTick (tk : SyncTick) : SyncTick :=
  {| tick_ctxErr := None; tick_connHot := tick_connHot tk;
     tick_expired := tick_expired tk; tick_eLen := tick_eLen tk;
     tick_bLen := tick_bLen tk |}.

Definition Sync (im : IngestMuxer) (ticks : list SyncTick) : SyncResult :=
  SyncContext im (backgroundTick <$> ticks).

(** ** Building a translator for a new connection *)

(** The loop [for k, v := range im.tagMap] of [newTagTrans] over the
    entries in the order the runtime yields them.  [None] is the panic of
    the store [tt[v] = tg] when [v] is [len(tt)]. *)
Fixpoint fillTagTrans (ig : IngestConnection) (order : list (string * EntryTag))
    (tt : tagTrans) : option (error + tagTrans) :=
  match order with
  | [] => Some (inr tt)
  | (k, v) :: rest =>
      if decide (length tt < N.to_nat v) then Some (inl ErrTagMapInvalid)
      else match conn_GetTag ig k with
           | None => Some (inl ErrTagNotFound)
           | Some tg =>
               if decide (N.to_nat v < length tt)
               then fillTagTrans ig rest (<[N.to_nat v := tg]> tt)
               else None
           end
  end.

(** [newTagTrans(igst)] on the tag map [m]; [order] is the order in which
    the runtime iterates over the map. *)
Definition newTagTrans (m : gmap string EntryTag)
    (order : list (string * EntryTag)) (ig : IngestConnection)
  : option (error + tagTrans) :=
  let tt : tagTrans := replicate (size m) 0%N in
  if decide (length tt = 0) then Some (inl ErrTagMapInvalid)
  else fillTagTrans ig order tt.

(** ** Reachable muxer states *)

Section Reachable.
Context `{EntryPackage}.
Variable CheckTag : string -> option error.

(** What a step leaves alone unless it is one of the operations that own
    it: only [newIngestMuxer] and [NegotiateTag] write [tags] and [tagMap];
    only [Start], [NegotiateTag] and the connection task write [igst] and
    [tagTranslators]; the destinations and the cache settings are fixed at
    construction. *)
Definition same_tables (im im' : IngestMuxer) : Prop :=
  tags im' = tags im /\ tagMap im' = tagMap im /\
  igst im' = igst im /\ tagTranslators im' = tagTranslators im /\
  dests im' = dests im /\ cacheEnabled im' = cacheEnabled im /\
  cache im' = cache im /\ cacheFileBacked im' = cacheFileBacked im.

Inductive step : IngestMuxer -> IngestMuxer -> Prop :=
| step_Start im im' :
    Start im = (im', None) -> step im im'
| step_NegotiateTag im name r :
    NegotiateTag CheckTag im name = Some r -> step im (nr_mux r)
| step_WriteEntry im e im' err :
    WriteEntry im e = Done (im', err) -> step im im'
| step_WriteBatch im b im' err :
    WriteBatch im b = Done (im', err) -> step im im'
(* connRoutine: [im.igst[igIdx] = igst; im.tagTranslators[igIdx] = &tt]
   with the translator [getConnection] built from the tag map [m] it saw *)
| step_install im k ig m order tr :
    order ≡ₚ map_to_list m ->
    newTagTrans m order ig = Some (inr tr) ->
    step im (set_conns im (<[k := Some ig]> (igst im))
                          (<[k := Some tr]> (tagTranslators im)))
(* connRoutine: [im.igst[igIdx] = nil; im.tagTranslators[igIdx] = nil] *)
| step_drop im k :
    step im (set_conns im (<[k := None]> (igst im))
                          (<[k := None]> (tagTranslators im)))
(* everything else: counters ([goHot], [goDead]), channel receives, the
   emergency queue, [Close] and the cache task's [cacheRunning] flag *)
| step_other im im' :
    same_tables im im' -> step im im'.

Definition reachable (im : IngestMuxer) : Prop :=
  exists c NewIngestCache im0,
    newIngestMuxer c NewIngestCache = inr im0 /\ rtc step im0 im.

End Reachable.

(** ** Auxiliary notions for the tag table *)

(** The last position of [k] in [ts]: the index the loop of [assignTags]
    leaves in the map for [k]. *)
Fixpoint lastIndexOf (k : string) (ts : list string) : option nat :=
  match ts with
  | [] => None
  | v :: rest =>
      match lastIndexOf k rest with
      | Some j => Some (S j)
      | None => if decide (v = k) then Some 0 else None
      end
  end.

(** The state invariant behind the claims on reachable states: the map is
    what the assignment loop computes from the table, both connection
    tables have one slot per destination, an enabled cache exists, and no
    installed translator is empty. *)
Definition muxer_inv `{EntryPackage} (im : IngestMuxer) : Prop :=
  tagMap im = assignTags 0 (tags im) ∅ /\
  length (igst im) = length (tagTranslators im) /\
  (cacheEnabled im = true -> is_Some (cache im)) /\
  Forall (fun s => s ≠ Some []) (tagTranslators im).

(** ** Concrete inputs *)

(** A [CheckTag] that refuses the empty name. *)
Definition checkNonEmpty (name : string) : option error :=
  if decide (name = "") then Some (errorsNew "Tag name is empty") else None.

Definition sampleEntry : Entry :=
  {| TS := 0; Tag := 0%N; SRC := []; Data := "hello" |}.

Definition sampleItem : emStruct :=
  {| em_e := Some sampleEntry; em_ents := [] |}.

(** An emergency queue that holds [maxEmergencyListSize] items. *)
Definition queue256 : emergencyQueue :=
  {| lst := replicate 256 sampleItem |}.

(** A connection whose session is gone: every call reports [ErrNotRunning].
    It answered tag lookups with remote id 3 when it was set up. *)
Definition downConn : IngestConnection :=
  {| conn_NegotiateTag := fun _ => inl ErrNotRunning;
     conn_GetTag := fun _ => Some 3%N;
     conn_Sync := Some ErrNotRunning |}.

(** A healthy connection that numbers remote tags by the length of the
    name. *)
Definition upConn : IngestConnection :=
  {| conn_NegotiateTag := fun name => inr (N.of_nat (String.length name));
     conn_GetTag := fun name => Some (N.of_nat (String.length name));
     conn_Sync := None |}.

Definition twoTargets : MuxerConfig :=
  {| Destinations := [ {| Address := "10.0.0.1:4023"; Secret := "s" |};
                       {| Address := "10.0.0.2:4023"; Secret := "s" |} ];
     Tags := ["default"]; ChannelSize := 0; EnableCache := false;
     CacheFileBackingLocation := "" |}.

(** The muxer built from [twoTargets], and after [Start]. *)
Definition builtMuxer : IngestMuxer :=
  freshMuxer (H := uint16Tags) twoTargets ["default"] None.

Definition startedMuxer : IngestMuxer := fst (Start builtMuxer).

(** After the second destination's connection has been installed with the
    translator [newTagTrans] built for it, and has gone hot. *)
Definition installedMuxer (ig : IngestConnection) (tr : list N) : IngestMuxer :=
  set_conns startedMuxer (<[1 := Some ig]> (igst startedMuxer))
                         (<[1 := Some tr]> (tagTranslators startedMuxer)).

Definition oneDownMuxer : IngestMuxer := goHot (installedMuxer downConn [3%N]).

Definition oneUpMuxer : IngestMuxer := goHot (installedMuxer upConn [7%N]).

(** A muxer configured with the same tag name twice. *)
Definition repeatedTag : MuxerConfig :=
  {| Destinations := [ {| Address := "10.0.0.1:4023"; Secret := "s" |} ];
     Tags := ["a"; "a"]; ChannelSize := 0; EnableCache := false;
     CacheFileBackingLocation := "" |}.

Definition repeatedTagMuxer : IngestMuxer :=
  freshMuxer (H := uint16Tags) repeatedTag ["a"; "a"] None.

(** A file-backed cache that stores a tag list of one name and fails to
    store a longer one. *)
Definition smallCache : IngestCache :=
  {| cache_Count := 0;
     cache_GetTagList := inr [];
     cache_UpdateStoredTagList := fun l =>
       if decide (length l <= 1) then None
       else Some (errorsNew "no space left on device") |}.

Definition cachedConfig : MuxerConfig :=
  {| Destinations := [ {| Address := "10.0.0.1:4023"; Secret := "s" |} ];
     Tags := ["a"]; ChannelSize := 16; EnableCache := true;
     CacheFileBackingLocation := "/var/cache/ingest.db" |}.

Definition cachedMuxer : IngestMuxer :=
  freshMuxer (H := uint16Tags) cachedConfig ["a"] (Some smallCache).

(** ** Further operations on the emergency queue *)

(** The loop of [Close] that empties the emergency queue into the cache,
    run for at most [fuel] rounds: the queue it leaves and the arguments of
    the successive [im.cache.addEntry] calls.  The single entry of an
    item is handed over when it is not nil, the entries of its batch as
    they are.  [None] when the rounds run out before [pop] reports an
    empty queue. *)
Fixpoint drainQueue (fuel : nat) (q : emergencyQueue)
  : option (emergencyQueue * list (option Entry)) :=
  match fuel with
  | 0 => None
  | S fuel' =>
      match pop q with
      | (q', (_, _, false)) => Some (q', [])
      | (q', (ent, ents, true)) =>
          match drainQueue fuel' q' with
          | Some (q'', added) =>
              Some (q'',
                    (if ent is Some e then [Some e] else []) ++
                    (if decide (0 < length ents) then ents else []) ++ added)
          | None => None
          end
      end
  end.

(** The entries one queue item carries, its single entry first. *)
Definition itemEntries (elm : emStruct) : list (option Entry) :=
  (if em_e elm is Some e then [Some e] else []) ++ em_ents elm.

(** A caller's use of the queue: a [push] or a [pop], results dropped. *)
Inductive queueOp :=
| opPush (e : option Entry) (ents : list (option Entry))
| opPop.

Definition runQueueOp (q : emergencyQueue) (op : queueOp) : emergencyQueue :=
  match op with
  | opPush e ents => fst (push q e ents)
  | opPop => fst (pop q)
  end.

(** ** Tag lookup and the accessors *)

(** [GetTag(tag)] *)
Definition GetTag (im : IngestMuxer) (tag : string) : N * option error :=
  match tagMap im !! tag with
  | Some tg => (tg, None)
  | None => (0%N, Some ErrTagNotFound)
  end.

(** The loop [for k, v := range im.tagMap { if v == tg { ...; break } }]
    of [LookupTag] over the entries in the order the runtime yields
    them. *)
Fixpoint lookupScan (order : list (string * N)) (tg : N) : string * bool :=
  match order with
  | [] => ("", false)
  | (k, v) :: rest => if decide (v = tg) then (k, true) else lookupScan rest tg
  end.

(** [LookupTag(tg)]; [order] is the order in which the runtime iterates
    over [im.tagMap]. *)
Definition LookupTag (im : IngestMuxer) (order : list (string * N)) (tg : N)
  : string * bool :=
  lookupScan order tg.

(** [Hot()], [Dead()] and [Size()] *)
Definition Hot (im : IngestMuxer) : Z * option error :=
  if decide (state im ≠ running) then ((-1)%Z, Some ErrNotRunning)
  else (connHot im, None).

Definition Dead (im : IngestMuxer) : Z * option error :=
  if decide (state im ≠ running) then ((-1)%Z, Some ErrNotRunning)
  else (connDead im, None).

Definition Size (im : IngestMuxer) : Z * option error :=
  if decide (state im ≠ running) then ((-1)%Z, Some ErrNotRunning)
  else (Z.of_nat (length (dests im)), None).

(** A connection task's transition: it goes hot or goes dead. *)
Inductive connEvent := evHot | evDead.

Definition runConnEvent (im : IngestMuxer) (ev : connEvent) : IngestMuxer :=
  match ev with
  | evHot => goHot im
  | evDead => goDead im
  end.

(** ** The uniform constructors *)

Module UniformMuxerConfig.
(** [UniformMuxerConfig], the fields read for the muxer state modelled
    here; [CacheFileBackingLocation] is [CacheConfig.FileBackingLocation]. *)
Record t := {
  Destinations : list string;
  Tags : list string;
  Auth : string;
  ChannelSize : Z;
  EnableCache : bool;
  CacheFileBackingLocation : string
}.
End UniformMuxerConfig.

Section UniformConstructors.
Context `{EntryPackage}.

(** [newUniformIngestMuxerEx(c)]; [NewIngestCache] as for
    [newIngestMuxer]. *)
Definition newUniformIngestMuxerEx (c : UniformMuxerConfig.t)
    (NewIngestCache : error + IngestCache) : error + IngestMuxer :=
  if decide (String.length (UniformMuxerConfig.Auth c) = 0) then inl ErrEmptyAuth
  else
    let destinations :=
      (fun a => {| Address := a; Secret := UniformMuxerConfig.Auth c |})
        <$> UniformMuxerConfig.Destinations c in
    if decide (length destinations = 0) then inl ErrNoTargets
    else
      newIngestMuxer
        {| Destinations := destinations;
           Tags := UniformMuxerConfig.Tags c;
           ChannelSize := UniformMuxerConfig.ChannelSize c;
           EnableCache := UniformMuxerConfig.EnableCache c;
           CacheFileBackingLocation :=
             UniformMuxerConfig.CacheFileBackingLocation c |}
        NewIngestCache.

End UniformConstructors.


(** ** Sync calls and the writes that can give up *)

(** The slots of [conns], counted from [k], that hold a connection. *)
Fixpoint liveSlots (k : nat) (conns : list (option IngestConnection))
  : list nat :=
  match conns with
  | [] => []
  | None :: rest => liveSlots (S k) rest
  | Some _ :: rest => k :: liveSlots (S k) rest
  end.

(** A two-way [select] between the send [ch <- x] and one other case.
    The send is ready when the buffer has room; when both cases are ready
    the runtime picks one ([preferOther]); when neither is, the statement
    waits.  [Done (Some ch')] is the send, [Done None] the other case. *)
Definition selectSend {A : Type} (ch : chan A) (x : A)
    (otherReady preferOther : bool) : Outcome (option (chan A)) :=
  match chan_send ch x, otherReady with
  | Some ch', false => Done (Some ch')
  | Some ch', true => if preferOther then Done None else Done (Some ch')
  | None, true => Done None
  | None, false => Blocked
  end.




(** ** The muxer's own log entries *)

Module GravwellLog.
Section GravwellLog.
Context `{EntryPackage}.

(** [type gll int] and its constants. *)
Definition gravwellError : Z := 3.
Definition gravwellWarn : Z := 2.
Definition gravwellInfo : Z := 1.
Definition gravwellOff : Z := 0.

(** [func (g gll) String()] *)
Definition gll_String (g : Z) : string :=
  if decide (g = gravwellOff) then "OFF"
  else if decide (g = gravwellInfo) then "INFO"
  else if decide (g = gravwellWarn) then "WARN"
  else if decide (g = gravwellError) then "ERROR"
  else "UNKNOWN".

(** The entry [gravwellWrite] builds; [now] is [entry.Now()] and [stamp]
    its rendering [ts.Format(time.RFC3339)]. *)
Definition logEntry (level : Z) (now : Z) (stamp line : string) : Entry :=
  {| TS := now; Tag := GravwellTagId; SRC := [];
     Data := stamp +:+ " " +:+ gll_String level +:+ " " +:+ line |}.

(** [gravwellWrite(level, line)] *)
Definition gravwellWrite (im : IngestMuxer) (level : Z) (now : Z)
    (stamp line : string) : Outcome (IngestMuxer * option error) :=
  WriteEntry im (Some (logEntry level now stamp line)).

(** [Error], [Warn] and [Info]; [logLevel] is the field [im.logLevel] and
    [line] the formatted message [fmt.Sprintf(format, args...)]. *)
Definition Error (logLevel : Z) (im : IngestMuxer) (now : Z)
    (stamp line : string) : Outcome (IngestMuxer * option error) :=
  if decide (logLevel < gravwellError)%Z then Done (im, None)
  else gravwellWrite im gravwellError now stamp line.

Definition Warn (logLevel : Z) (im : IngestMuxer) (now : Z)
    (stamp line : string) : Outcome (IngestMuxer * option error) :=
  if decide (logLevel < gravwellWarn)%Z then Done (im, None)
  else gravwellWrite im gravwellError now stamp line.

Definition Info (logLevel : Z) (im : IngestMuxer) (now : Z)
    (stamp line : string) : Outcome (IngestMuxer * option error) :=
  if decide (logLevel < gravwellInfo)%Z then Done (im, None)
  else gravwellWrite im gravwellWarn now stamp line.

End GravwellLog.
End GravwellLog.

(** ** The log package *)

Module Log.

Definition OFF : Z := 0.
Definition DEBUG : Z := 1.
Definition INFO : Z := 2.
Definition WARN : Z := 3.
Definition ERROR : Z := 4.
Definition CRITICAL : Z := 5.

Definition ErrNotOpen : error := errorsNew "Logger is not open".
Definition ErrInvalidLevel : error := errorsNew "Log level is invalid".
Definition errNilWriter : error := errorsNew "Invalid writer, is nil".

(** The [io.WriteCloser] values handed to the logger, told apart by a
    number; [None] is the nil interface.  What their [Write] and [Close]
    return is given by the environment. *)
Record Writers := {
  wr_Write : nat -> string -> option error;
  wr_Close : nat -> option error
}.

(** What the logger does to its writers. *)
Inductive Effect :=
| Wrote (w : nat) (ln : string)
| Closed (w : nat).

(** [Logger], without its mutex. *)
Record Logger := {
  wtrs : list (option nat);
  lvl : Z;
  hot : bool
}.

(** [New(wtr)] *)
Definition New (wtr : option nat) : Logger :=
  {| wtrs := [wtr]; lvl := INFO; hot := true |}.

(** [ready()] *)
Definition ready (l : Logger) : option error :=
  if negb (hot l) || bool_decide (length (wtrs l) = 0) then Some ErrNotOpen
  else None.

(** The loop of [Close] over the writers; [None] is the panic of a call
    on a nil writer. *)
Fixpoint closeAll (env : Writers) (ws : list (option nat)) (err : option error)
  : option (option error * list Effect) :=
  match ws with
  | [] => Some (err, [])
  | None :: _ => None
  | Some w :: rest =>
      let err' := if wr_Close env w is Some lerr then Some lerr else err in
      match closeAll env rest err' with
      | Some (e, effs) => Some (e, Closed w :: effs)
      | None => None
      end
  end.

(** [Close()] *)
Definition Close (env : Writers) (l : Logger)
  : option (Logger * option error * list Effect) :=
  match ready l with
  | Some err => Some (l, Some err, [])
  | None =>
      let l' := {| wtrs := wtrs l; lvl := lvl l; hot := false |} in
      match closeAll env (wtrs l) None with
      | Some (err, effs) => Some (l', err, effs)
      | None => None
      end
  end.

(** [AddWriter(wtr)] *)
Definition AddWriter (l : Logger) (wtr : option nat) : Logger * option error :=
  match wtr with
  | None => (l, Some errNilWriter)
  | Some _ =>
      match ready l with
      | Some err => (l, Some err)
      | None => ({| wtrs := wtrs l ++ [wtr]; lvl := lvl l; hot := hot l |}, None)
      end
  end.

(** The loop [for i := len(l.wtrs) - 1; i >= 0; i--] of [DeleteWriter],
    with [n] rounds to go; [None] is an index out of range. *)
Fixpoint deleteLoop (wtr : option nat) (n : nat) (ws : list (option nat))
  : option (list (option nat)) :=
  match n with
  | 0 => Some ws
  | S i =>
      match ws !! i with
      | None => None
      | Some x =>
          deleteLoop wtr i
            (if decide (x = wtr) then take i ws ++ drop (S i) ws else ws)
      end
  end.

(** [DeleteWriter(wtr)] *)
Definition DeleteWriter (l : Logger) (wtr : option nat)
  : option (Logger * option error) :=
  match wtr with
  | None => Some (l, Some errNilWriter)
  | Some _ =>
      match ready l with
      | Some err => Some (l, Some err)
      | None =>
          match deleteLoop wtr (length (wtrs l)) (wtrs l) with
          | Some ws => Some ({| wtrs := ws; lvl := lvl l; hot := hot l |}, None)
          | None => None
          end
      end
  end.

(** [func (l Level) Valid()] *)
Definition Valid (v : Z) : bool :=
  bool_decide (v = OFF) || bool_decide (v = DEBUG) || bool_decide (v = INFO)
  || bool_decide (v = WARN) || bool_decide (v = ERROR)
  || bool_decide (v = CRITICAL).

(** [func (l Level) String()] *)
Definition String (v : Z) : string :=
  if decide (v = OFF) then "OFF"
  else if decide (v = DEBUG) then "DEBUG"
  else if decide (v = INFO) then "INFO"
  else if decide (v = WARN) then "WARN"
  else if decide (v = ERROR) then "ERROR"
  else if decide (v = CRITICAL) then "CRITICAL"
  else "UNKNOWN".

(** [SetLevel(lvl)] *)
Definition SetLevel (l : Logger) (v : Z) : Logger * option error :=
  match ready l with
  | Some err => (l, Some err)
  | None =>
      if negb (Valid v) then (l, Some ErrInvalidLevel)
      else ({| wtrs := wtrs l; lvl := v; hot := hot l |}, None)
  end.

(** [GetLevel()] *)
Definition GetLevel (l : Logger) : Z :=
  match ready l with
  | Some _ => OFF
  | None => lvl l
  end.

Section LevelNames.
(** [strings.ToUpper] of the Go library. *)
Variable ToUpper : string -> string.

(** [LevelFromString(s)] *)
Definition LevelFromString (s : string) : Z * option error :=
  let s := ToUpper s in
  if decide (s = "OFF") then (OFF, None)
  else if decide (s = "DEBUG") then (DEBUG, None)
  else if decide (s = "INFO") then (INFO, None)
  else if decide (s = "WARN") then (WARN, None)
  else if decide (s = "ERROR") then (ERROR, None)
  else if decide (s = "CRITICAL") then (CRITICAL, None)
  else (0%Z, Some ErrInvalidLevel).

(** [SetLevelString(s)] *)
Definition SetLevelString (l : Logger) (s : string) : Logger * option error :=
  match LevelFromString s with
  | (_, Some err) => (l, Some err)
  | (v, None) => SetLevel l v
  end.

End LevelNames.

(** The line feed character. *)
Definition newline : Ascii.ascii := Ascii.ascii_of_nat 10.

(** [strings.HasSuffix(f, "\n")] *)
Fixpoint endsWithNewline (f : string) : bool :=
  match f with
  | EmptyString => false
  | String.String c EmptyString => bool_decide (c = newline)
  | String.String _ rest => endsWithNewline rest
  end.

(** The loop of [output] over the writers; [None] is the panic of a write
    to a nil writer. *)
Fixpoint writeAll (env : Writers) (ln : string) (ws : list (option nat))
    (err : option error) : option (option error * list Effect) :=
  match ws with
  | [] => Some (err, [])
  | None :: _ => None
  | Some w :: rest =>
      let err' := if wr_Write env w ln is Some lerr then Some lerr else err in
      match writeAll env ln rest err' with
      | Some (e, effs) => Some (e, Wrote w ln :: effs)
      | None => None
      end
  end.

(** The line [output] writes; [stamp] is the rendered time and [msg] is
    [fmt.Sprintf(f, args...)]. *)
Definition logLine (v : Z) (stamp f msg : string) : string :=
  stamp +:+ " " +:+ String v +:+ " " +:+ msg +:+
  (if endsWithNewline f then "" else String.String newline EmptyString).

(** [output(lvl, f, args...)] *)
Definition output (env : Writers) (l : Logger) (v : Z) (stamp f msg : string)
  : option (option error * list Effect) :=
  match ready l with
  | Some err => Some (Some err, [])
  | None =>
      if bool_decide (lvl l <= v)%Z && bool_decide (lvl l ≠ OFF)
      then writeAll env (logLine v stamp f msg) (wtrs l) None
      else Some (None, [])
  end.

(** [Debug], [Info], [Warn], [Error] and [Critical] *)
Definition Debug env l := output env l DEBUG.
Definition Info env l := output env l INFO.
Definition Warn env l := output env l WARN.
Definition Error env l := output env l ERROR.
Definition Critical env l := output env l CRITICAL.

(** What a caller does with a logger. *)
Inductive Op :=
| OpClose
| OpAddWriter (wtr : option nat)
| OpDeleteWriter (wtr : option nat)
| OpSetLevel (v : Z)
| OpOutput (v : Z) (stamp f msg : string).

(** One call: the logger after it, the error it returns and what it did
    to the writers; [None] is a panic. *)
Definition runOp (env : Writers) (l : Logger) (op : Op)
  : option (Logger * option error * list Effect) :=
  match op with
  | OpClose => Close env l
  | OpAddWriter w => let (l', err) := AddWriter l w in Some (l', err, [])
  | OpDeleteWriter w =>
      match DeleteWriter l w with
      | Some (l', err) => Some (l', err, [])
      | None => None
      end
  | OpSetLevel v => let (l', err) := SetLevel l v in Some (l', err, [])
  | OpOutput v stamp f msg =>
      match output env l v stamp f msg with
      | Some (err, effs) => Some (l, err, effs)
      | None => None
      end
  end.

End Log.

(** ** The emergency queue with the entries behind pointers

    [push] and [pop] above carry entries by value, which is all the
    length of the queue depends on.  [clear] rewrites the tags of queued
    entries in place, through the pointers the queue holds, so here the
    entries live in a store and the queue holds their addresses.  [None]
    as a result is a run-time panic (a nil pointer dereferenced, an index
    out of range); an address without an entry does not occur in Go and
    gives [None] as well. *)

Section PointerQueue.
Context `{EntryPackage}.

(** [emStruct] with its pointers: [e *entry.Entry] and
    [ents []*entry.Entry]. *)
Record emPtrs := {
  p_e : option nat;
  p_ents : list (option nat)
}.

(** [push] and [pop] on the list of such items. *)
Definition pushPtr (q : list emPtrs) (e : option nat) (ents : list (option nat))
  : list emPtrs * option error :=
  if bool_decide (e = None) && bool_decide (length ents = 0) then (q, None)
  else
    if decide (maxEmergencyListSize < length q)
    then (q, Some ErrEmergencyListOverflow)
    else (q ++ [{| p_e := e; p_ents := ents |}], None).

Definition popPtr (q : list emPtrs)
  : list emPtrs * (option nat * list (option nat) * bool) :=
  match q with
  | [] => (q, (None, [], false))
  | elm :: rest => (rest, (p_e elm, p_ents elm, true))
  end.

(** The assignment [p.Tag = t]. *)
Definition setTag (h : gmap nat Entry) (p : nat) (t : N) : gmap nat Entry :=
  alter (fun e => {| TS := TS e; Tag := t; SRC := SRC e; Data := Data e |}) p h.

(** What a connection is handed: the entries as they are at the call. *)
Inductive WriteCall :=
| CallWriteEntry (e : Entry)
| CallWriteBatchEntry (b : list (option Entry)).

Definition snapshot (h : gmap nat Entry) (blk : list (option nat))
  : list (option Entry) :=
  (fun p => p ≫= (fun a => h !! a)) <$> blk.

(** [for j := 0; j < i; j++ { blk[j].Tag = tt.Reverse(blk[j].Tag) }]
    over the entries before the one that failed; no entry is tested for
    nil. *)
Fixpoint reversePrefix (tt : list N) (h : gmap nat Entry)
    (prefix : list (option nat)) : option (gmap nat Entry) :=
  match prefix with
  | [] => Some h
  | None :: _ => None
  | Some p :: rest =>
      match h !! p with
      | None => None
      | Some e => reversePrefix tt (setTag h p (Reverse tt (Tag e))) rest
      end
  end.

(** [for i := range blk { if blk[i] != nil { blk[i].Tag = tt.Reverse(...) } }] *)
Fixpoint reverseAll (tt : list N) (h : gmap nat Entry)
    (blk : list (option nat)) : option (gmap nat Entry) :=
  match blk with
  | [] => Some h
  | None :: rest => reverseAll tt h rest
  | Some p :: rest =>
      match h !! p with
      | None => None
      | Some e => reverseAll tt (setTag h p (Reverse tt (Tag e))) rest
      end
  end.

(** The translation loop of [clear] over a batch: [before] are the
    entries already passed, [todo] those still to come, [ok] the current
    value of the result variable.  It yields the store, [ok], and whether
    a translation failed (the entries before it are then reversed). *)
Fixpoint translateBlock (tt : list N) (h : gmap nat Entry)
    (before todo : list (option nat)) (ok : bool)
  : option (gmap nat Entry * bool * bool) :=
  match todo with
  | [] => Some (h, ok, false)
  | None :: rest => translateBlock tt h (before ++ [None]) rest ok
  | Some p :: rest =>
      match h !! p with
      | None => None
      | Some e =>
          match Translate tt (Tag e) with
          | None => None
          | Some (ttag, true) =>
              translateBlock tt (setTag h p ttag) (before ++ [Some p]) rest true
          | Some (_, false) =>
              match reversePrefix tt h before with
              | Some h' => Some (h', false, true)
              | None => None
              end
          end
      end
  end.

(** What [clear] leaves behind and returns. *)
Record ClearResult := {
  cr_store : gmap nat Entry;
  cr_queue : list emPtrs;
  cr_ok : bool;
  cr_calls : list WriteCall
}.

Definition withCalls (cs : list WriteCall) (r : ClearResult) : ClearResult :=
  {| cr_store := cr_store r; cr_queue := cr_queue r; cr_ok := cr_ok r;
     cr_calls := cs ++ cr_calls r |}.

(** The batch of one item in [clear]: [e] is the single entry if it is
    still to be pushed back, [n] counts the writes made so far and [wres]
    gives the result of each write on the connection.  [inl] is the
    return of [clear], [inr] carries on with the next item. *)
Definition clearBlock (tt : list N) (wres : nat -> option error) (n : nat)
    (ok : bool) (h : gmap nat Entry) (rest : list emPtrs) (e : option nat)
    (blk : list (option nat))
  : option (ClearResult + (gmap nat Entry * nat * bool * list WriteCall)) :=
  if decide (0 < length blk) then
    match translateBlock tt h [] blk ok with
    | None => None
    | Some (h1, _, true) =>
        Some (inl {| cr_store := h1; cr_queue := fst (pushPtr rest e blk);
                     cr_ok := false; cr_calls := [] |})
    | Some (h1, ok1, false) =>
        match wres n with
        | Some _ =>
            match reverseAll tt h1 blk with
            | None => None
            | Some h2 =>
                Some (inl {| cr_store := h2;
                             cr_queue := fst (pushPtr rest e blk);
                             cr_ok := ok1;
                             cr_calls := [CallWriteBatchEntry (snapshot h1 blk)] |})
            end
        | None =>
            Some (inr (h1, S n, ok1, [CallWriteBatchEntry (snapshot h1 blk)]))
        end
    end
  else Some (inr (h, n, ok, [])).

(** The loop of [clear(igst, tt)] over the queue [items]. *)
Fixpoint clearLoop (tt : list N) (wres : nat -> option error) (n : nat)
    (ok : bool) (h : gmap nat Entry) (items : list emPtrs)
  : option ClearResult :=
  match items with
  | [] => Some {| cr_store := h; cr_queue := []; cr_ok := true; cr_calls := [] |}
  | elm :: rest =>
      let blk := p_ents elm in
      let next (h1 : gmap nat Entry) (n1 : nat) (ok1 : bool)
               (e : option nat) (calls1 : list WriteCall) :=
        match clearBlock tt wres n1 ok1 h1 rest e blk with
        | None => None
        | Some (inl r) => Some (withCalls calls1 r)
        | Some (inr (h2, n2, ok2, calls2)) =>
            match clearLoop tt wres n2 ok2 h2 rest with
            | Some r => Some (withCalls (calls1 ++ calls2) r)
            | None => None
            end
        end in
      match p_e elm with
      | None => next h n ok None []
      | Some p =>
          match h !! p with
          | None => None
          | Some e =>
              match Translate tt (Tag e) with
              | None => None
              | Some (_, false) =>
                  Some {| cr_store := h;
                          cr_queue := fst (pushPtr rest (Some p) blk);
                          cr_ok := false; cr_calls := [] |}
              | Some (ttag, true) =>
                  let h1 := setTag h p ttag in
                  match h1 !! p with
                  | None => None
                  | Some e1 =>
                      match wres n with
                      | Some _ =>
                          Some {| cr_store := setTag h1 p (Reverse tt (Tag e1));
                                  cr_queue := fst (pushPtr rest (Some p) blk);
                                  cr_ok := true;
                                  cr_calls := [CallWriteEntry e1] |}
                      | None => next h1 (S n) true None [CallWriteEntry e1]
                      end
                  end
              end
          end
      end
  end.

(** [clear(igst, tt)] on the queue [q] with the entries in [h]. *)
Definition clear (tt : list N) (wres : nat -> option error)
    (h : gmap nat Entry) (q : list emPtrs) : option ClearResult :=
  clearLoop tt wres 0 false h q.

(** All the non-nil pointers the queue holds. *)
Definition itemPtrs (elm : emPtrs) : list nat :=
  (if p_e elm is Some p then [p] else []) ++ omap id (p_ents elm).

(** The writes of an item that is drained: its single entry, then its
    batch if it has one, as the store [h] has them. *)
Definition itemCalls (h : gmap nat Entry) (elm : emPtrs) : list WriteCall :=
  (if p_e elm ≫= (fun a => h !! a) is Some e then [CallWriteEntry e] else []) ++
  (if decide (0 < length (p_ents elm))
   then [CallWriteBatchEntry (snapshot h (p_ents elm))] else []).

(** Every tag of the store replaced by its translation. *)
Definition translated (tt : list N) (e : Entry) : Entry :=
  {| TS := TS e;
     Tag := if Translate tt (Tag e) is Some (r, _) then r else Tag e;
     SRC := SRC e; Data := Data e |}.

(** The entry at [p] has a tag the translator knows. *)
Definition translatable (tt : list N) (h : gmap nat Entry) (p : nat) : Prop :=
  exists e r, h !! p = Some e /\ Translate tt (Tag e) = Some (r, true).

(** The store after the entries at [ps] had their tags translated. *)
Definition translateStore (tt : list N) (ps : list nat) (h : gmap nat Entry)
  : gmap nat Entry :=
  foldl (fun h p => alter (translated tt) p h) h ps.

End PointerQueue.

(** ** Recycling entries *)

Section Recycle.
Context `{EntryPackage}.

(** What [recycleEntries] works on: the entries, the two channels (of
    pointers) and the emergency queue. *)
Record RecycleState := {
  rs_store : gmap nat Entry;
  rs_eChan : chan nat;
  rs_bChan : chan (list (option nat));
  rs_queue : list emPtrs
}.

(** The call has returned, or it waits at one of its [select]s with what
    it has done so far. *)
Inductive RecycleOutcome :=
| Returned (st : RecycleState)
| Waiting (st : RecycleState).

(** The second half of [recycleEntries]: the batch is offered to [bChan]
    until the timer fires, then parked. *)
Definition recycleBatch (fired pick : bool) (st : RecycleState)
    (ents : list (option nat)) : RecycleOutcome :=
  if decide (0 < length ents) then
    match selectSend (rs_bChan st) ents fired pick with
    | Done None =>
        Returned {| rs_store := rs_store st; rs_eChan := rs_eChan st;
                    rs_bChan := rs_bChan st;
                    rs_queue := fst (pushPtr (rs_queue st) None ents) |}
    | Done (Some ch) =>
        Returned {| rs_store := rs_store st; rs_eChan := rs_eChan st;
                    rs_bChan := ch; rs_queue := rs_queue st |}
    | Blocked => Waiting st
    end
  else Returned st.

(** [recycleEntries(e, ents, tt, reverseTags)].  [fired1] and [fired2]
    tell whether the timer has fired when the first and the second
    [select] are reached, [pick1] and [pick2] are the runtime's choice
    when both cases of a [select] are ready.  [None] is a panic. *)
Definition recycleEntries (tt : list N) (fired1 pick1 fired2 pick2 : bool)
    (st : RecycleState) (e : option nat) (ents : list (option nat))
    (reverseTags : bool) : option RecycleOutcome :=
  match (if bool_decide (0 < length ents) && reverseTags
         then reverseAll tt (rs_store st) ents else Some (rs_store st)) with
  | None => None
  | Some h1 =>
      match e with
      | None =>
          Some (recycleBatch fired2 pick2
                  {| rs_store := h1; rs_eChan := rs_eChan st;
                     rs_bChan := rs_bChan st; rs_queue := rs_queue st |} ents)
      | Some p =>
          match h1 !! p with
          | None => None
          | Some en =>
              let h2 := setTag h1 p (Reverse tt (Tag en)) in
              let st2 := {| rs_store := h2; rs_eChan := rs_eChan st;
                            rs_bChan := rs_bChan st; rs_queue := rs_queue st |} in
              match selectSend (rs_eChan st) p fired1 pick1 with
              | Done None =>
                  match pushPtr (rs_queue st) (Some p) ents with
                  | (_, Some _) => Some (Returned st2)
                  | (q', None) =>
                      Some (recycleBatch fired2 pick2
                              {| rs_store := h2; rs_eChan := rs_eChan st;
                                 rs_bChan := rs_bChan st; rs_queue := q' |}
                              ents)
                  end
              | Done (Some ch) =>
                  Some (recycleBatch fired2 pick2
                          {| rs_store := h2; rs_eChan := ch;
                             rs_bChan := rs_bChan st; rs_queue := rs_queue st |}
                          ents)
              | Blocked => Some (Waiting st2)
              end
          end
      end
  end.

End Recycle.

(** ** Concrete inputs for the wider code *)

(** What [NegotiateTag] answers for the new name "syslog" on the muxer
    with one live connection. *)
Definition syslogNegotiated : NegotiateResult :=
  default {| nr_mux := oneUpMuxer; nr_tg := 0%N; nr_err := None;
             nr_calls := [] |}
          (NegotiateTag (H := uint16Tags) checkNonEmpty oneUpMuxer "syslog").

(** A connection that knows no tag. *)
Definition deafConn : IngestConnection :=
  {| conn_NegotiateTag := fun _ => inl ErrNotRunning;
     conn_GetTag := fun _ => None;
     conn_Sync := None |}.

Definition uniformTargets : UniformMuxerConfig.t :=
  {| UniformMuxerConfig.Destinations := ["10.0.0.1:4023"; "10.0.0.2:4023"];
     UniformMuxerConfig.Tags := ["default"];
     UniformMuxerConfig.Auth := "s";
     UniformMuxerConfig.ChannelSize := 0;
     UniformMuxerConfig.EnableCache := false;
     UniformMuxerConfig.CacheFileBackingLocation := "" |}.


(** An entry whose tag the translator [[7]] does not know. *)
Definition strayEntry : Entry :=
  {| TS := TS sampleEntry; Tag := 5%N; SRC := []; Data := "stray" |}.

(** Upper-casing of ASCII strings. *)
Definition upperAscii (a : Ascii.ascii) : Ascii.ascii :=
  let n := Ascii.nat_of_ascii a in
  if bool_decide (97 <= n) && bool_decide (n <= 122)
  then Ascii.ascii_of_nat (n - 32) else a.

Fixpoint asciiToUpper (s : string) : string :=
  match s with
  | EmptyString => EmptyString
  | String.String a rest => String.String (upperAscii a) (asciiToUpper rest)
  end.


Definition twoWriterLogger : Log.Logger :=
  {| Log.wtrs := [Some 0; Some 1]; Log.lvl := Log.INFO; Log.hot := true |}.

(** Recycling: an entry with a stray tag and both channels empty; and an
    entry with a batch while the entry channel is full. *)
Definition recycleStart : RecycleState :=
  {| rs_store := {[ 0 := strayEntry ]};
     rs_eChan := make_chan 1; rs_bChan := make_chan 1; rs_queue := [] |}.

Definition recycleFull : RecycleState :=
  {| rs_store := <[ 1 := sampleEntry ]> {[ 0 := strayEntry ]};
     rs_eChan := {| chan_cap := 1; chan_buf := [9] |};
     rs_bChan := make_chan 1; rs_queue := [] |}.

(** What recycling leaves of the two states: the stray tag reversed to 0,
    the entry sent; and the batch parked twice. *)
Definition recycledEntry : Entry :=
  {| TS := TS strayEntry; Tag := 0%N; SRC := SRC strayEntry;
     Data := Data strayEntry |}.

Definition recycledStart : RecycleState :=
  {| rs_store := {[ 0 := recycledEntry ]};
     rs_eChan := {| chan_cap := 1; chan_buf := [0] |};
     rs_bChan := make_chan 1; rs_queue := [] |}.

Definition recycledFull : RecycleState :=
  {| rs_store := <[ 1 := sampleEntry ]> {[ 0 := recycledEntry ]};
     rs_eChan := {| chan_cap := 1; chan_buf := [9] |};
     rs_bChan := make_chan 1;
     rs_queue := [{| p_e := Some 0; p_ents := [Some 1] |};
                  {| p_e := None; p_ents := [Some 1] |}] |}.

(** Recycling onto a queue that already holds 257 items while the entry
    channel is full: the state before, and the state the call leaves, in
    which only the entry's tag has changed. *)
Definition recycleOverfull : RecycleState :=
  {| rs_store := {[ 0 := strayEntry ]};
     rs_eChan := {| chan_cap := 1; chan_buf := [9] |};
     rs_bChan := make_chan 1;
     rs_queue := replicate 257 {| p_e := Some 1; p_ents := [] |} |}.

Definition recycledOverfull : RecycleState :=
  {| rs_store := {[ 0 := recycledEntry ]};
     rs_eChan := {| chan_cap := 1; chan_buf := [9] |};
     rs_bChan := make_chan 1;
     rs_queue := replicate 257 {| p_e := Some 1; p_ents := [] |} |}.

(** * Properties *)

(** ** The tag translator *)

Section TagTranslatorFacts.
Context `{EntryPackage}.

Lemma toEntryTag_small (i : nat) :
  (N.of_nat i < tagModulus)%N -> toEntryTag i = N.of_nat i.
Proof. intros Hi. unfold toEntryTag. by apply N.mod_small. Qed.

Lemma toEntryTag_of_tag (t : EntryTag) :
  (t < tagModulus)%N -> toEntryTag (N.to_nat t) = t.
Proof. intros Ht. rewrite toEntryTag_small; rewrite N2Nat.id; done. Qed.

(** The scan finds the first position that holds [t], counted from [k]. *)
Lemma reverseScan_Some (tt : tagTrans) (k i : nat) (t : EntryTag) :
  reverseScan tt k t = Some i <->
  exists j, i = k + j /\ tt !! j = Some t /\
            forall j', j' < j -> tt !! j' ≠ Some t.
Proof.
  revert k. induction tt as [|x rest IH]; intros k; simpl.
  - split; [done|]. intros (j & _ & Hj & _). done.
  - destruct (decide (x = t)) as [->|Hne].
    + split.
      * intros [= <-]. exists 0. split; [lia|]. split; [done|]. lia.
      * intros (j & -> & Hj & Hmin). destruct j as [|j]; [f_equal; lia|].
        exfalso. apply (Hmin 0); [lia|done].
    + rewrite IH. split.
      * intros (j & -> & Hj & Hmin). exists (S j). split; [lia|].
        split; [done|]. intros [|j'] Hlt; simpl; [congruence|].
        apply Hmin. lia.
      * intros (j & -> & Hj & Hmin). destruct j as [|j]; simpl in Hj.
        { congruence. }
        exists j. split; [lia|]. split; [done|].
        intros j' Hlt. apply (Hmin (S j')). lia.
Qed.

Lemma reverseScan_None (tt : tagTrans) (k : nat) (t : EntryTag) :
  reverseScan tt k t = None <-> t ∉ tt.
Proof.
  revert k. induction tt as [|x rest IH]; intros k; simpl.
  - split; [intros _; apply not_elem_of_nil|done].
  - destruct (decide (x = t)) as [->|Hne].
    + split; [done|]. intros Hn. exfalso. apply Hn. left.
    + rewrite IH. rewrite not_elem_of_cons. split; [by intros ?; split; [congruence|]|by intros [_ ?]].
Qed.

Lemma Reverse_first (tt : tagTrans) (r : EntryTag) (i : nat) :
  r ≠ GravwellTagId -> tt !! i = Some r ->
  (forall j, j < i -> tt !! j ≠ Some r) ->
  Reverse tt r = toEntryTag i.
Proof.
  intros Hr Hi Hmin. unfold Reverse. rewrite decide_False by done.
  assert (reverseScan tt 0 r = Some i) as ->; [|done].
  apply reverseScan_Some. exists i. done.
Qed.

Lemma Translate_in_range (tt : tagTrans) (t r : EntryTag) :
  t ≠ GravwellTagId -> tt !! N.to_nat t = Some r ->
  Translate tt t = Some (r, true).
Proof.
  intros Ht Hr. unfold Translate. rewrite decide_False by done.
  apply lookup_lt_Some in Hr as Hlt.
  rewrite decide_False by lia. by rewrite Hr.
Qed.

(** C3, as amended.  [Translate(tt, t)] returns [(t, true)] for the
    reserved Gravwell tag; otherwise [(tt[t], true)] when [t < len(tt)];
    otherwise, when [t >= len(tt)] and the translator is not empty,
    [(tt[0], false)].  On an empty translator an out-of-range tag other
    than the Gravwell tag makes the access [tt[0]] panic. *)
Theorem Translate_cases (tt : tagTrans) (t : EntryTag) :
  (t = GravwellTagId -> Translate tt t = Some (t, true)) /\
  (t ≠ GravwellTagId -> N.to_nat t < length tt ->
     exists r, tt !! N.to_nat t = Some r /\ Translate tt t = Some (r, true)) /\
  (t ≠ GravwellTagId -> length tt <= N.to_nat t ->
     forall r, tt !! 0 = Some r -> Translate tt t = Some (r, false)) /\
  (t ≠ GravwellTagId -> tt = [] -> Translate tt t = None).
Proof.
  unfold Translate. repeat split.
  - intros ->. by rewrite decide_True.
  - intros Ht Hlt. destruct (lookup_lt_is_Some_2 tt (N.to_nat t) Hlt) as [r Hr].
    exists r. split; [done|]. rewrite decide_False by done.
    rewrite decide_False by lia. by rewrite Hr.
  - intros Ht Hge r Hr. rewrite decide_False by done.
    rewrite decide_True by done. by rewrite Hr.
  - intros Ht ->. rewrite decide_False by done.
    rewrite decide_True by (simpl; lia). done.
Qed.

(** C2, as amended.  For a tag id [t] with an entry at position [t] of the
    translator: the Gravwell tag round-trips; any other [t] round-trips
    through [Translate] and [Reverse] exactly when the remote id [tt[t]]
    is not the Gravwell id and does not occur in [tt] below position [t]. *)
Theorem Reverse_Translate_roundtrip (tt : tagTrans) (t r : EntryTag) :
  (t < tagModulus)%N ->
  tt !! N.to_nat t = Some r ->
  (t = GravwellTagId ->
     Reverse tt <$> (fst <$> Translate tt t) = Some t) /\
  (t ≠ GravwellTagId ->
     (Reverse tt <$> (fst <$> Translate tt t) = Some t <->
      r ≠ GravwellTagId /\ forall j, j < N.to_nat t -> tt !! j ≠ Some r)).
Proof.
  intros Hmod Hr. split.
  - intros ->. unfold Translate, Reverse. rewrite !decide_True by done. simpl.
    by rewrite decide_True.
  - intros Ht. rewrite (Translate_in_range tt t r) by done. simpl. split.
    + intros [= Hrev]. unfold Reverse in Hrev.
      destruct (decide (r = GravwellTagId)) as [->|Hrg]; [done|].
      split; [done|].
      destruct (reverseScan tt 0 r) as [i|] eqn:Hscan.
      * apply reverseScan_Some in Hscan as (j & -> & Hj & Hmin). simpl in Hrev.
        assert (j <= N.to_nat t) as Hle.
        { destruct (decide (j <= N.to_nat t)); [done|].
          exfalso. apply (Hmin (N.to_nat t)); [lia|done]. }
        rewrite toEntryTag_small in Hrev by lia.
        assert (j = N.to_nat t) as -> by lia. done.
      * apply reverseScan_None in Hscan. exfalso. apply Hscan.
        by eapply list_elem_of_lookup_2.
    + intros [Hrg Hmin]. f_equal.
      rewrite (Reverse_first tt r (N.to_nat t)) by done.
      by apply toEntryTag_of_tag.
Qed.

(** C5.  [RegisterTag(local, remote)] succeeds exactly when [local] is the
    length of the translator; it then appends [remote] (the length grows
    by one and the last element is [remote]); otherwise it returns the
    out-of-sync error and the translator is unchanged. *)
Theorem RegisterTag_spec (tt : tagTrans) (local remote : EntryTag) :
  (snd (RegisterTag tt local remote) = None <-> N.to_nat local = length tt) /\
  (N.to_nat local = length tt ->
     RegisterTag tt local remote = (tt ++ [remote], None) /\
     length (fst (RegisterTag tt local remote)) = S (length tt) /\
     last (fst (RegisterTag tt local remote)) = Some remote) /\
  (N.to_nat local ≠ length tt ->
     RegisterTag tt local remote = (tt, Some errOutOfSync)).
Proof.
  unfold RegisterTag.
  destruct (decide (N.to_nat local ≠ length tt)) as [Hne|Heq]; simpl.
  - repeat split; try done.
  - assert (N.to_nat local = length tt) as Heq' by lia.
    repeat split; try done.
    + rewrite length_app. simpl. lia.
    + apply last_snoc.
Qed.

(** C9.  [Reverse(tt, r)] returns [r] for the reserved Gravwell tag;
    otherwise the smallest index [i] with [tt[i] == r], as a tag id
    ([entry.EntryTag(i)], which is [i] itself whenever [i] is in the range
    of the tag type), when [r] occurs in [tt]; and [0] when it does not. *)
Theorem Reverse_spec (tt : tagTrans) (r : EntryTag) :
  (r = GravwellTagId -> Reverse tt r = r) /\
  (r ≠ GravwellTagId ->
     forall i, tt !! i = Some r -> (forall j, j < i -> tt !! j ≠ Some r) ->
       Reverse tt r = toEntryTag i /\
       ((N.of_nat i < tagModulus)%N -> Reverse tt r = N.of_nat i)) /\
  (r ≠ GravwellTagId -> r ∉ tt -> Reverse tt r = 0%N).
Proof.
  repeat split.
  - intros ->. unfold Reverse. by rewrite decide_True.
  - by apply Reverse_first.
  - intros Hi. rewrite (Reverse_first tt r i) by done.
    by apply toEntryTag_small.
  - intros Hr Hnot. unfold Reverse. rewrite decide_False by done.
    apply reverseScan_None with (k := 0) in Hnot. by rewrite Hnot.
Qed.

End TagTranslatorFacts.

(** The translator [[5; 5]] answers both local tags with remote id 5;
    reversing the translation of local tag 1 gives 0. *)
Lemma Reverse_Translate_duplicate :
  N.to_nat 1 < length ([5; 5]%N : tagTrans) /\
  Reverse (H := uint16Tags) [5; 5]%N
    <$> (fst <$> Translate (H := uint16Tags) [5; 5]%N 1%N) = Some 0%N /\
  Reverse (H := uint16Tags) [5; 5]%N
    <$> (fst <$> Translate (H := uint16Tags) [5; 5]%N 1%N) ≠ Some 1%N.
Proof. split; [simpl; lia|]. split; [reflexivity|discriminate]. Qed.

Lemma Reverse_Translate_roundtrip_witness :
  Reverse (H := uint16Tags) [7; 9]%N
    <$> (fst <$> Translate (H := uint16Tags) [7; 9]%N 1%N) = Some 1%N.
Proof.
  apply (Reverse_Translate_roundtrip (H := uint16Tags) [7; 9]%N 1%N 9%N);
    [reflexivity | reflexivity | discriminate |].
  split; [discriminate|]. intros [|[|j]] Hj; simpl in *; [discriminate|lia|lia].
Defined.

(** On the empty translator the out-of-range tag 0 does not return
    [(tt[0], false)]: the access panics. *)
Lemma Translate_empty_translator :
  length ([] : tagTrans) <= N.to_nat 0 /\
  ~ exists r, Translate (H := uint16Tags) [] 0%N = Some (r, false).
Proof. split; [simpl; lia|]. intros [r Hr]. discriminate Hr. Qed.

Lemma Translate_cases_witness :
  Translate (H := uint16Tags) [7; 9]%N 65535%N = Some (65535%N, true) /\
  (exists r, ([7; 9]%N : tagTrans) !! N.to_nat 1 = Some r /\
             Translate (H := uint16Tags) [7; 9]%N 1%N = Some (r, true)) /\
  Translate (H := uint16Tags) [7; 9]%N 4%N = Some (7%N, false) /\
  Translate (H := uint16Tags) [] 4%N = None.
Proof.
  split; [|split; [|split]].
  - apply (Translate_cases (H := uint16Tags) [7; 9]%N 65535%N). reflexivity.
  - apply (Translate_cases (H := uint16Tags) [7; 9]%N 1%N);
      [discriminate | simpl; lia].
  - apply (Translate_cases (H := uint16Tags) [7; 9]%N 4%N);
      [discriminate | simpl; lia | reflexivity].
  - apply (Translate_cases (H := uint16Tags) [] 4%N); [discriminate | reflexivity].
Defined.

Lemma RegisterTag_spec_witness :
  RegisterTag [7; 9]%N 2%N 11%N = ([7; 9; 11]%N, None) /\
  RegisterTag [7; 9]%N 5%N 11%N = ([7; 9]%N, Some errOutOfSync).
Proof.
  split.
  - apply (RegisterTag_spec [7; 9]%N 2%N 11%N). reflexivity.
  - apply (RegisterTag_spec [7; 9]%N 5%N 11%N). simpl. lia.
Defined.

Lemma Reverse_spec_witness :
  Reverse (H := uint16Tags) [7; 9; 9]%N 65535%N = 65535%N /\
  Reverse (H := uint16Tags) [7; 9; 9]%N 9%N = 1%N /\
  Reverse (H := uint16Tags) [7; 9; 9]%N 4%N = 0%N.
Proof.
  split; [|split].
  - apply (Reverse_spec (H := uint16Tags) [7; 9; 9]%N 65535%N). reflexivity.
  - apply (Reverse_spec (H := uint16Tags) [7; 9; 9]%N 9%N) with (i := 1);
      [discriminate | reflexivity | | reflexivity].
    intros [|j] Hj; simpl; [discriminate | lia].
  - apply (Reverse_spec (H := uint16Tags) [7; 9; 9]%N 4%N); [discriminate|].
    intros Hin. repeat (apply elem_of_cons in Hin as [Hin|Hin]; [discriminate|]).
    by apply elem_of_nil in Hin.
Defined.

(** ** The emergency queue *)

Lemma push_empty_payload (q : emergencyQueue) :
  push q None [] = (q, None).
Proof. reflexivity. Qed.

Lemma push_payload (q : emergencyQueue) (e : option Entry)
    (ents : list (option Entry)) :
  e ≠ None \/ ents ≠ [] ->
  push q e ents =
    if decide (maxEmergencyListSize < length (lst q))
    then (q, Some ErrEmergencyListOverflow)
    else ({| lst := lst q ++ [{| em_e := e; em_ents := ents |}] |}, None).
Proof.
  intros Hp. unfold push.
  destruct e as [e|]; [done|].
  destruct ents as [|x ents]; [|done].
  destruct Hp; done.
Qed.

(** C1 (what the code does).  A push with an empty payload leaves the
    queue alone and succeeds; a push with a payload is refused with the
    overflow error exactly when the queue holds more than 256 items, so a
    queue that already holds 256 items accepts one more and then holds
    257. *)
Theorem push_overflow_threshold (q : emergencyQueue) (e : option Entry)
    (ents : list (option Entry)) :
  push q None [] = (q, None) /\
  (e ≠ None \/ ents ≠ [] ->
     (snd (push q e ents) = Some ErrEmergencyListOverflow <->
        256 < length (lst q)) /\
     (length (lst q) <= 256 ->
        push q e ents =
          ({| lst := lst q ++ [{| em_e := e; em_ents := ents |}] |}, None)) /\
     (length (lst q) = 256 ->
        snd (push q e ents) = None /\
        length (lst (fst (push q e ents))) = 257)).
Proof.
  split; [reflexivity|]. intros Hp. rewrite (push_payload q e ents Hp).
  unfold maxEmergencyListSize.
  destruct (decide (256 < length (lst q))) as [Hgt|Hle]; simpl.
  - split; [done|]. split; intros; lia.
  - split; [split; [done|lia]|]. split; [done|].
    intros Hlen. split; [done|]. rewrite length_app. simpl. lia.
Qed.

(** ** Writing to the channels *)

Section WriteFacts.

Lemma chan_send_room {A : Type} (ch : chan A) (x : A) :
  length (chan_buf ch) < chan_cap ch ->
  chan_send ch x =
    Some {| chan_cap := chan_cap ch; chan_buf := chan_buf ch ++ [x] |}.
Proof. intros Hroom. unfold chan_send. by rewrite decide_True. Qed.

Lemma chan_send_full {A : Type} (ch : chan A) (x : A) :
  chan_cap ch <= length (chan_buf ch) -> chan_send ch x = None.
Proof. intros Hfull. unfold chan_send. by rewrite decide_False by lia. Qed.

(** C6.  [WriteEntry(nil)] and [WriteBatch] of an empty batch succeed and
    leave the muxer, hence both channels, as they are, in every state.
    For a non-nil entry or non-empty batch: when the state is not
    [running] the call returns [ErrNotRunning] and nothing changes; when it
    is [running] and the channel has room the call succeeds, and in the
    muxer it leaves the buffer of [eChan] ([bChan]) is the old buffer
    followed by the entry (batch), the capacity is the same, the other
    channel and every other field are as before; while the channel is
    full the send waits. *)
Theorem WriteEntry_WriteBatch_spec (im : IngestMuxer) (e : Entry)
    (b : list (option Entry)) :
  WriteEntry im None = Done (im, None) /\
  WriteBatch im [] = Done (im, None) /\
  (state im ≠ running ->
     WriteEntry im (Some e) = Done (im, Some ErrNotRunning) /\
     (b ≠ [] -> WriteBatch im b = Done (im, Some ErrNotRunning))) /\
  (state im = running ->
     (length (chan_buf (eChan im)) < chan_cap (eChan im) ->
        exists im',
          WriteEntry im (Some e) = Done (im', None) /\
          chan_buf (eChan im') = chan_buf (eChan im) ++ [e] /\
          chan_cap (eChan im') = chan_cap (eChan im) /\
          bChan im' = bChan im /\
          same_but_channels im im') /\
     (chan_cap (eChan im) <= length (chan_buf (eChan im)) ->
        WriteEntry im (Some e) = Blocked) /\
     (b ≠ [] -> length (chan_buf (bChan im)) < chan_cap (bChan im) ->
        exists im',
          WriteBatch im b = Done (im', None) /\
          chan_buf (bChan im') = chan_buf (bChan im) ++ [b] /\
          chan_cap (bChan im') = chan_cap (bChan im) /\
          eChan im' = eChan im /\
          same_but_channels im im') /\
     (b ≠ [] -> chan_cap (bChan im) <= length (chan_buf (bChan im)) ->
        WriteBatch im b = Blocked)).
Proof.
  split; [reflexivity|]. split; [reflexivity|]. split.
  - intros Hst. split.
    + unfold WriteEntry. by rewrite bool_decide_false.
    + intros Hb. unfold WriteBatch. destruct b; [done|]. simpl.
      by rewrite bool_decide_false.
  - intros Hst. repeat split.
    + intros Hroom. unfold WriteEntry. rewrite bool_decide_true by done.
      simpl. rewrite chan_send_room by done. eexists. split; [reflexivity|].
      unfold same_but_channels. simpl. by repeat split.
    + intros Hfull. unfold WriteEntry. rewrite bool_decide_true by done.
      simpl. by rewrite chan_send_full.
    + intros Hb Hroom. unfold WriteBatch. destruct b; [done|]. simpl.
      rewrite bool_decide_true by done. simpl.
      rewrite chan_send_room by done. eexists. split; [reflexivity|].
      unfold same_but_channels. simpl. by repeat split.
    + intros Hb Hfull. unfold WriteBatch. destruct b; [done|]. simpl.
      rewrite bool_decide_true by done. simpl. by rewrite chan_send_full.
Qed.

End WriteFacts.

(** ** Sync *)

Section SyncFacts.

Lemma syncConns_count_le (k : nat) (conns : list (option IngestConnection)) :
  fst (syncConns k conns) <= length conns.
Proof.
  revert k. induction conns as [|[v|] rest IH]; intros k; simpl; [lia| |].
  - specialize (IH (S k)). destruct (syncConns (S k) rest) as [count calls].
    simpl in *. case_bool_decide; simpl; lia.
  - specialize (IH (S k)). lia.
Qed.

Lemma syncConns_nil_slot (k : nat) (conns : list (option IngestConnection)) :
  None ∈ conns -> fst (syncConns k conns) < length conns.
Proof.
  revert k. induction conns as [|[v|] rest IH]; intros k Hin; simpl.
  - by apply elem_of_nil in Hin.
  - apply elem_of_cons in Hin as [?|Hin]; [done|].
    specialize (IH (S k) Hin). destruct (syncConns (S k) rest) as [count calls].
    simpl in *. case_bool_decide; simpl; lia.
  - pose proof (syncConns_count_le (S k) rest). lia.
Qed.

Lemma syncConns_all_not_running (k : nat)
    (conns : list (option IngestConnection)) :
  Forall (fun s => exists v, s = Some v /\ conn_Sync v = Some ErrNotRunning)
         conns ->
  fst (syncConns k conns) = length conns /\
  snd (syncConns k conns) = CallSync <$> seq k (length conns).
Proof.
  intros Hall. revert k. induction Hall as [|s rest (v & -> & Hv) _ IH];
    intros k; simpl; [done|].
  specialize (IH (S k)). destruct (syncConns (S k) rest) as [count calls].
  simpl in *. rewrite bool_decide_true by done. simpl.
  destruct IH as [-> ->]. done.
Qed.

(** C7, as amended.  [SyncContext] (and [Sync]) called with no hot
    connection and the cache not running returns [ErrAllConnsDown] without
    a [Sync] call on any connection.  Past that guard, once both channels
    have been seen empty, it returns [ErrAllConnsDown] when every slot of
    the connection table holds a connection and each of them reports
    [ErrNotRunning]; when some slot is empty it returns success, whatever
    the connections in the other slots report. *)
Theorem SyncContext_AllConnsDown (im : IngestMuxer) (ticks : list SyncTick) :
  (connHot im = 0%Z -> cacheRunning im = false ->
     SyncContext im ticks = SyncReturns (Some ErrAllConnsDown) [] /\
     Sync im ticks = SyncReturns (Some ErrAllConnsDown) []) /\
  (~ (connHot im = 0%Z /\ cacheRunning im = false) ->
   waitChannels (length (chan_buf (eChan im)))
                (length (chan_buf (bChan im))) ticks = Drained ->
     (Forall (fun s => exists v, s = Some v /\
                                 conn_Sync v = Some ErrNotRunning) (igst im) ->
        SyncContext im ticks =
          SyncReturns (Some ErrAllConnsDown)
                      (CallSync <$> seq 0 (length (igst im)))) /\
     (None ∈ igst im ->
        SyncContext im ticks = SyncReturns None (snd (syncConns 0 (igst im))))) /\
  (~ (connHot im = 0%Z /\ cacheRunning im = false) ->
   waitChannels (length (chan_buf (eChan im)))
                (length (chan_buf (bChan im))) (backgroundTick <$> ticks)
     = Drained ->
   Forall (fun s => exists v, s = Some v /\
                              conn_Sync v = Some ErrNotRunning) (igst im) ->
     Sync im ticks =
       SyncReturns (Some ErrAllConnsDown)
                   (CallSync <$> seq 0 (length (igst im)))).
Proof.
  assert (~ (connHot im = 0%Z /\ cacheRunning im = false) ->
          bool_decide (connHot im = 0%Z) && negb (cacheRunning im) = false)
    as Hpast.
  { intros Hguard. destruct (cacheRunning im); [by rewrite andb_false_r|].
    rewrite bool_decide_false; [done|]. intros ?. by apply Hguard. }
  split; [|split].
  - intros Hhot Hcache. unfold Sync, SyncContext.
    rewrite Hcache. rewrite bool_decide_true by done. done.
  - intros Hguard Hwait. unfold SyncContext.
    rewrite (Hpast Hguard), Hwait. split.
    + intros Hall. apply (syncConns_all_not_running 0) in Hall as [Hc Hl].
      destruct (syncConns 0 (igst im)) as [count calls]. simpl in *.
      subst. by rewrite decide_True.
    + intros Hnil. apply (syncConns_nil_slot 0) in Hnil.
      destruct (syncConns 0 (igst im)) as [count calls]. simpl in *.
      by rewrite decide_False by lia.
  - intros Hguard Hwait Hall. unfold Sync, SyncContext.
    rewrite (Hpast Hguard), Hwait.
    apply (syncConns_all_not_running 0) in Hall as [Hc Hl].
    destruct (syncConns 0 (igst im)) as [count calls]. simpl in *.
    subst. by rewrite decide_True.
Qed.

End SyncFacts.

(** ** The tag table *)

Section TagTableFacts.
Context `{EntryPackage}.

Lemma lastIndexOf_None (k : string) (ts : list string) :
  lastIndexOf k ts = None <-> k ∉ ts.
Proof.
  induction ts as [|v rest IH]; simpl.
  - split; [intros _; apply not_elem_of_nil|done].
  - rewrite not_elem_of_cons. destruct (lastIndexOf k rest) as [i|].
    + split; [done|]. intros [_ Hn]. by apply IH in Hn.
    + destruct (decide (v = k)) as [->|Hne].
      * split; [done|]. by intros [? _].
      * split; [|done]. intros _. split; [congruence|]. by apply IH.
Qed.

Lemma lastIndexOf_Some (k : string) (ts : list string) (j : nat) :
  lastIndexOf k ts = Some j <->
  ts !! j = Some k /\ forall j', j < j' -> ts !! j' ≠ Some k.
Proof.
  revert j. induction ts as [|v rest IH]; intros j; simpl.
  - split; [done|]. by intros [? _].
  - destruct (lastIndexOf k rest) as [i|] eqn:Hlast.
    + pose proof (proj1 (IH i) eq_refl) as [Hi Hmax]. split.
      * intros [= <-]. split; [done|].
        intros [|j'] Hlt; [lia|]. simpl. apply Hmax. lia.
      * intros [Hj Hmaxj]. destruct j as [|j].
        { exfalso. apply (Hmaxj (S i)); [lia|done]. }
        simpl in Hj. f_equal. f_equal.
        destruct (decide (i = j)) as [|Hne]; [done|]. exfalso.
        destruct (decide (i < j)).
        -- by apply (Hmax j).
        -- apply (Hmaxj (S i)); [lia|done].
    + assert (forall j', rest !! j' ≠ Some k) as Hnone.
      { intros j' Hj'. apply lastIndexOf_None in Hlast. apply Hlast.
        by eapply list_elem_of_lookup_2. }
      destruct (decide (v = k)) as [->|Hne]; split.
      * intros [= <-]. split; [done|]. intros [|j'] Hlt; [lia|]. apply Hnone.
      * intros [Hj _]. destruct j as [|j]; [done|]. by apply Hnone in Hj.
      * done.
      * intros [Hj _]. destruct j as [|j]; simpl in Hj; [congruence|].
        by apply Hnone in Hj.
Qed.

Lemma lastIndexOf_snoc (k : string) (ts : list string) :
  lastIndexOf k (ts ++ [k]) = Some (length ts).
Proof.
  apply lastIndexOf_Some. split.
  - by rewrite lookup_app_r, Nat.sub_diag.
  - intros j' Hlt. rewrite lookup_ge_None_2; [done|].
    rewrite length_app. simpl. lia.
Qed.

(** What the assignment loop leaves in the map. *)
Lemma assignTags_lookup (i : nat) (ts : list string)
    (m : gmap string N) (k : string) :
  assignTags i ts m !! k =
    match lastIndexOf k ts with
    | Some j => Some (toEntryTag (i + j))
    | None => m !! k
    end.
Proof.
  revert i m. induction ts as [|v rest IH]; intros i m; simpl; [done|].
  rewrite IH. destruct (lastIndexOf k rest) as [j|].
  - do 2 f_equal. lia.
  - destruct (decide (v = k)) as [->|Hne].
    + rewrite lookup_insert_eq. do 2 f_equal. lia.
    + by rewrite lookup_insert_ne.
Qed.

(** Running the loop again over an extended table on top of the map built
    from the table gives the map built from the extended table. *)
Lemma assignTags_rebuild (ts : list string) (name : string) :
  assignTags 0 (ts ++ [name]) (assignTags 0 ts ∅) =
  assignTags 0 (ts ++ [name]) ∅.
Proof.
  apply map_eq. intros k. rewrite !assignTags_lookup.
  destruct (lastIndexOf k (ts ++ [name])) as [j|] eqn:Hlast; [done|].
  apply lastIndexOf_None in Hlast.
  assert (lastIndexOf k ts = None) as ->; [|done].
  apply lastIndexOf_None. intros Hin. apply Hlast.
  apply elem_of_app. by left.
Qed.

Lemma tagMap_index (ts : list string) (name : string) (t : N) :
  assignTags 0 ts ∅ !! name = Some t ->
  exists i, ts !! i = Some name /\ t = toEntryTag i.
Proof.
  rewrite assignTags_lookup.
  destruct (lastIndexOf name ts) as [j|] eqn:Hlast; [|done].
  apply lastIndexOf_Some in Hlast as [Hj _]. intros [= <-]. by exists j.
Qed.

Lemma tagMap_to_tags (ts : list string) (name : string) (t : N) :
  (N.of_nat (length ts) <= tagModulus)%N ->
  assignTags 0 ts ∅ !! name = Some t ->
  ts !! N.to_nat t = Some name.
Proof.
  intros Hfit. rewrite assignTags_lookup.
  destruct (lastIndexOf name ts) as [j|] eqn:Hlast; [|done].
  apply lastIndexOf_Some in Hlast as [Hj _]. intros [= <-]. simpl.
  apply lookup_lt_Some in Hj as Hlt.
  rewrite toEntryTag_small by lia. by rewrite Nat2N.id.
Qed.

Lemma tags_to_tagMap (ts : list string) (name : string) (i : nat) :
  ts !! i = Some name ->
  (forall j, i < j -> ts !! j ≠ Some name) ->
  assignTags 0 ts ∅ !! name = Some (toEntryTag i).
Proof.
  intros Hi Hmax. rewrite assignTags_lookup.
  assert (lastIndexOf name ts = Some i) as ->; [|done].
  by apply lastIndexOf_Some.
Qed.

Lemma NoDup_last_occurrence (ts : list string) (name : string) (i j : nat) :
  NoDup ts -> ts !! i = Some name -> i < j -> ts !! j ≠ Some name.
Proof.
  intros Hnd Hi Hlt Hj.
  pose proof (NoDup_lookup _ _ _ _ Hnd Hi Hj). lia.
Qed.

End TagTableFacts.

(** ** Building translators *)

Section NewTagTransFacts.

Lemma fillTagTrans_length (ig : IngestConnection)
    (order : list (string * N)) (tt tr : list N) :
  fillTagTrans ig order tt = Some (inr tr) -> length tr = length tt.
Proof.
  revert tt. induction order as [|[k v] rest IH]; intros tt; simpl.
  - by intros [= <-].
  - case_decide; [done|]. destruct (conn_GetTag ig k) as [tg|]; [|done].
    case_decide; [|done]. intros Hfill. apply IH in Hfill.
    by rewrite length_insert in Hfill.
Qed.

Lemma fillTagTrans_total (ig : IngestConnection)
    (order : list (string * N)) (tt : list N) :
  Forall (fun kv => is_Some (conn_GetTag ig kv.1) /\
                    N.to_nat kv.2 < length tt) order ->
  exists tr, fillTagTrans ig order tt = Some (inr tr).
Proof.
  intros Hall. revert tt Hall.
  induction order as [|[k v] rest IH]; intros tt Hall; simpl.
  - by exists tt.
  - apply Forall_cons in Hall as [[[tg Htg] Hv] Hall]. simpl in *.
    rewrite decide_False by lia. rewrite Htg. rewrite decide_True by done.
    apply IH. eapply Forall_impl; [exact Hall|].
    intros [k' v'] [? ?]. by rewrite length_insert.
Qed.

Lemma newTagTrans_empty (m : gmap string N) (order : list (string * N))
    (ig : IngestConnection) :
  size m = 0 -> newTagTrans m order ig = Some (inl ErrTagMapInvalid).
Proof.
  intros Hsz. unfold newTagTrans. rewrite Hsz. simpl. done.
Qed.

Lemma newTagTrans_length (m : gmap string N) (order : list (string * N))
    (ig : IngestConnection) (tr : list N) :
  newTagTrans m order ig = Some (inr tr) ->
  length tr = size m /\ 1 <= length tr.
Proof.
  unfold newTagTrans. rewrite length_replicate.
  case_decide as Hsz; [done|]. intros Hfill.
  apply fillTagTrans_length in Hfill. rewrite length_replicate in Hfill. lia.
Qed.

End NewTagTransFacts.

(** ** Invariants of reachable states *)

Section ReachableFacts.
Context `{EntryPackage}.
Variable CheckTag : string -> option error.

Lemma RegisterTag_nonempty (tr : list N) (local remote : N) :
  tr ≠ [] -> fst (RegisterTag tr local remote) ≠ [].
Proof.
  intros Hne. unfold RegisterTag. case_decide; simpl; [done|].
  by destruct tr.
Qed.

(** The connection loop of [NegotiateTag] runs to its end when every
    connection slot has a translator slot; it keeps the number of
    translator slots and leaves no translator empty. *)
Lemma negotiateConns_total (name : string) (tg : N) (k : nat)
    (conns : list (option IngestConnection)) (tts : list (option (list N))) :
  k + length conns <= length tts ->
  Forall (fun s => s ≠ Some []) tts ->
  exists tts' calls,
    negotiateConns name tg k conns tts = Some (tts', calls) /\
    length tts' = length tts /\
    Forall (fun s => s ≠ Some []) tts'.
Proof.
  revert k tts. induction conns as [|[v|] rest IH]; intros k tts Hlen Hne;
    simpl in *.
  - by exists tts, [].
  - destruct (conn_NegotiateTag v name) as [err|remoteTag].
    + destruct (IH (S k) tts) as (tts' & calls & -> & ? & ?); [lia|done|].
      by eexists _, _.
    + destruct (lookup_lt_is_Some_2 tts k) as [slot Hslot]; [lia|].
      rewrite Hslot. destruct slot as [tr|].
      * pose proof (RegisterTag_nonempty tr tg remoteTag) as Hreg.
        destruct (RegisterTag tr tg remoteTag) as [tt' err]. simpl in Hreg.
        destruct (IH (S k) (<[k := Some tt']> tts))
          as (tts' & calls & -> & Hl & ?).
        { rewrite length_insert. lia. }
        { apply Forall_insert; [done|]. intros [= ->]. apply Hreg; [|done].
          intros ->. rewrite Forall_lookup in Hne. by apply (Hne k _ Hslot). }
        rewrite length_insert in Hl. by eexists _, _.
      * destruct (IH (S k) tts) as (tts' & calls & -> & ? & ?); [lia|done|].
        by eexists _, _.
  - apply IH; [lia|done].
Qed.

Lemma newIngestMuxer_inv (c : MuxerConfig) (nc : error + IngestCache)
    (im : IngestMuxer) :
  newIngestMuxer c nc = inr im -> muxer_inv im.
Proof.
  unfold newIngestMuxer. intros Hnew.
  assert (exists ts ch, im = freshMuxer c ts ch /\
                        (EnableCache c = true -> is_Some ch))
    as (ts & ch & -> & Hch).
  { destruct (EnableCache c) eqn:Hen.
    - destruct nc as [err|ch]; [done|].
      destruct (initialTags c ch) as [err|ts]; [done|].
      destruct (cache_UpdateStoredTagList ch ts); [done|].
      injection Hnew as <-. by eexists _, (Some ch).
    - injection Hnew as <-. by eexists _, None. }
  repeat split; simpl; done.
Qed.

Lemma Start_inv (im im' : IngestMuxer) (err : option error) :
  Start im = (im', err) -> muxer_inv im -> muxer_inv im'.
Proof.
  unfold Start. intros Hstart (Hmap & Hlen & Hcache & Hne).
  case_match; injection Hstart as <- <-; [done|].
  repeat split; simpl; try done.
  - by rewrite !length_replicate.
  - apply Forall_replicate. done.
Qed.

Lemma NegotiateTag_returns (im : IngestMuxer) (name : string) :
  muxer_inv im -> exists r, NegotiateTag CheckTag im name = Some r.
Proof.
  intros (Hmap & Hlen & Hcache & Hne). unfold NegotiateTag.
  destruct (CheckTag name); [by eexists|].
  destruct (tagMap im !! name); [by eexists|].
  destruct (negotiateConns_total name
              (default 0%N (assignTags 0 (tags im ++ [name]) (tagMap im) !! name))
              0 (igst im) (tagTranslators im))
    as (tts & calls & Hneg & _); [lia|done|].
  simpl. rewrite Hneg.
  destruct (cacheEnabled im) eqn:Hen; simpl; [|by eexists].
  destruct (cacheFileBacked im); simpl; [|by eexists].
  destruct (Hcache eq_refl) as [ch ->].
  destruct (cache_UpdateStoredTagList ch _); by eexists.
Qed.

Lemma NegotiateTag_inv (im : IngestMuxer) (name : string)
    (r : NegotiateResult) :
  NegotiateTag CheckTag im name = Some r -> muxer_inv im -> muxer_inv (nr_mux r).
Proof.
  intros Hneg Hinv. pose proof Hinv as (Hmap & Hlen & Hcache & Hne).
  unfold NegotiateTag in Hneg.
  destruct (CheckTag name); [by injection Hneg as <-|].
  destruct (tagMap im !! name); [by injection Hneg as <-|].
  assert (assignTags 0 (tags im ++ [name]) (tagMap im) =
          assignTags 0 (tags im ++ [name]) ∅) as Hmap'.
  { rewrite Hmap at 1. apply assignTags_rebuild. }
  destruct (negotiateConns_total name
              (default 0%N (assignTags 0 (tags im ++ [name]) (tagMap im) !! name))
              0 (igst im) (tagTranslators im))
    as (tts & calls & Hconns & Hl & Hne'); [lia|done|].
  simpl in Hneg. rewrite Hconns in Hneg.
  assert (muxer_inv (set_tags im (tags im ++ [name])
                       (assignTags 0 (tags im ++ [name]) (tagMap im)))) as Hinv1.
  { repeat split; simpl; done. }
  assert (muxer_inv (set_conns
                       (set_tags im (tags im ++ [name])
                          (assignTags 0 (tags im ++ [name]) (tagMap im)))
                       (igst im) tts)) as Hinv2.
  { repeat split; simpl; try done. by rewrite Hl. }
  destruct (cacheEnabled im && cacheFileBacked im).
  - destruct (cache im) as [ch|]; [|done].
    destruct (cache_UpdateStoredTagList ch _); by injection Hneg as <-.
  - by injection Hneg as <-.
Qed.

Lemma step_inv (im im' : IngestMuxer) :
  step CheckTag im im' -> muxer_inv im -> muxer_inv im'.
Proof.
  intros Hstep Hinv. destruct Hstep as
    [im im' Hs | im name r Hn | im e im' err Hw | im b im' err Hw
    | im k ig m order tr Hperm Hnew | im k | im im' Hsame].
  - by eapply Start_inv.
  - by eapply NegotiateTag_inv.
  - unfold WriteEntry in Hw. destruct e as [e|]; [|by injection Hw as <- _].
    destruct (negb _); [by injection Hw as <- _|].
    destruct (chan_send _ _); [|done]. injection Hw as <- _. exact Hinv.
  - unfold WriteBatch in Hw. case_decide; [by injection Hw as <- _|].
    destruct (negb _); [by injection Hw as <- _|].
    destruct (chan_send _ _); [|done]. injection Hw as <- _. exact Hinv.
  - destruct Hinv as (Hmap & Hlen & Hcache & Hne).
    apply newTagTrans_length in Hnew as [_ Hpos].
    repeat split; simpl; try done.
    + by rewrite !length_insert.
    + destruct (decide (k < length (tagTranslators im))).
      * apply Forall_insert; [done|]. intros [= ->]. simpl in Hpos. lia.
      * by rewrite list_insert_ge by lia.
  - destruct Hinv as (Hmap & Hlen & Hcache & Hne).
    repeat split; simpl; try done.
    + by rewrite !length_insert.
    + destruct (decide (k < length (tagTranslators im))).
      * by apply Forall_insert.
      * by rewrite list_insert_ge by lia.
  - destruct Hinv as (Hmap & Hlen & Hcache & Hne).
    destruct Hsame as (Ht & Hm & Hi & Htt & _ & Hce & Hc & _).
    repeat split.
    + by rewrite Hm, Ht.
    + by rewrite Hi, Htt.
    + by rewrite Hce, Hc.
    + by rewrite Htt.
Qed.

Lemma reachable_inv (im : IngestMuxer) :
  reachable CheckTag im -> muxer_inv im.
Proof.
  intros (c & nc & im0 & Hnew & Hsteps).
  apply newIngestMuxer_inv in Hnew.
  induction Hsteps as [|x y z Hxy _ IH]; [done|].
  apply IH. by eapply step_inv.
Qed.

Lemma reachable_step (im im' : IngestMuxer) :
  reachable CheckTag im -> step CheckTag im im' -> reachable CheckTag im'.
Proof.
  intros (c & nc & im0 & Hnew & Hsteps) Hstep.
  exists c, nc, im0. split; [done|]. by eapply rtc_r.
Qed.

(** No step removes or reorders names of the tag table. *)
Lemma step_tags_prefix (im im' : IngestMuxer) :
  step CheckTag im im' -> tags im `prefix_of` tags im'.
Proof.
  intros Hstep. destruct Hstep as
    [im im' Hs | im name r Hn | im e im' err Hw | im b im' err Hw
    | im k ig m order tr Hperm Hnew | im k | im im' Hsame].
  - unfold Start in Hs. case_match; by simplify_eq.
  - unfold NegotiateTag in Hn.
    destruct (CheckTag name); [by injection Hn as <-|].
    destruct (tagMap im !! name); [by injection Hn as <-|].
    simpl in Hn.
    destruct (negotiateConns _ _ _ _ _) as [[tts calls]|];
      destruct (cacheEnabled im && cacheFileBacked im);
      try destruct (cache im) as [ch|];
      try destruct (cache_UpdateStoredTagList ch _);
      try done; injection Hn as <-; simpl; by apply prefix_app_r.
  - unfold WriteEntry in Hw. destruct e as [e|]; [|by injection Hw as <- _].
    destruct (negb _); [by injection Hw as <- _|].
    destruct (chan_send _ _); [|done]. by injection Hw as <- _.
  - unfold WriteBatch in Hw. case_decide; [by injection Hw as <- _|].
    destruct (negb _); [by injection Hw as <- _|].
    destruct (chan_send _ _); [|done]. by injection Hw as <- _.
  - done.
  - done.
  - destruct Hsame as (-> & _). done.
Qed.

End ReachableFacts.

(** ** Tag negotiation and the reachable tag table *)

Section MuxerTheorems.
Context `{EntryPackage}.
Variable CheckTag : string -> option error.

(** C4, as amended.  In a reachable state, for a name that passes
    [CheckTag]: if the name is in the tag map, [NegotiateTag] returns its
    id without an error, leaves the muxer unchanged and makes no call on
    any connection.  If it is absent, the name is appended to the tag
    table at the index that was the table's length and the map sends it to
    that index.  The call then returns an error exactly when the muxer has
    a file-backed cache whose [UpdateStoredTagList] fails on the new
    list: that error is returned, with id 0, and no connection is called.
    In every other case it returns the index (as a tag id) without an
    error. *)
Theorem NegotiateTag_spec (im : IngestMuxer) (name : string) :
  reachable CheckTag im -> CheckTag name = None ->
  (forall t, tagMap im !! name = Some t ->
     NegotiateTag CheckTag im name =
       Some {| nr_mux := im; nr_tg := t; nr_err := None; nr_calls := [] |}) /\
  (tagMap im !! name = None ->
     exists r, NegotiateTag CheckTag im name = Some r /\
       tags (nr_mux r) = tags im ++ [name] /\
       tags (nr_mux r) !! length (tags im) = Some name /\
       tagMap (nr_mux r) !! name = Some (toEntryTag (length (tags im))) /\
       (forall err,
          nr_err r = Some err <->
          cacheEnabled im = true /\ cacheFileBacked im = true /\
          exists ch, cache im = Some ch /\
            cache_UpdateStoredTagList ch (tags im ++ [name]) = Some err) /\
       match nr_err r with
       | None =>
           nr_tg r = toEntryTag (length (tags im)) /\
           ((N.of_nat (length (tags im)) < tagModulus)%N ->
              nr_tg r = N.of_nat (length (tags im)))
       | Some err =>
           cacheEnabled im = true /\ cacheFileBacked im = true /\
           (exists ch, cache im = Some ch /\
              cache_UpdateStoredTagList ch (tags im ++ [name]) = Some err) /\
           nr_tg r = 0%N /\ nr_calls r = []
       end).
Proof.
  intros Hreach Hcheck. split.
  - intros t Ht. unfold NegotiateTag. by rewrite Hcheck, Ht.
  - intros Habsent.
    pose proof (reachable_inv CheckTag im Hreach) as (Hmap & Hlen & Hcache & Hne).
    assert (assignTags 0 (tags im ++ [name]) (tagMap im) !! name =
            Some (toEntryTag (length (tags im)))) as Hnew.
    { by rewrite assignTags_lookup, lastIndexOf_snoc. }
    assert ((tags im ++ [name]) !! length (tags im) = Some name) as Hidx.
    { by rewrite lookup_app_r, Nat.sub_diag. }
    destruct (negotiateConns_total name (toEntryTag (length (tags im)))
                0 (igst im) (tagTranslators im))
      as (tts & calls & Hconns & _); [lia|done|].
    unfold NegotiateTag. rewrite Hcheck, Habsent. simpl.
    rewrite Hnew. simpl. rewrite Hconns.
    destruct (cacheEnabled im) eqn:Hen; simpl.
    + destruct (cacheFileBacked im) eqn:Hfb; simpl.
      * destruct (Hcache eq_refl) as [ch Hch]. rewrite Hch.
        destruct (cache_UpdateStoredTagList ch (tags im ++ [name]))
          as [err|] eqn:Hupd.
        -- eexists. split; [done|]. simpl.
           split; [done|]. split; [done|]. split; [done|]. split.
           ++ intros err'. split.
              ** intros [= <-]. split; [done|]. split; [done|]. by exists ch.
              ** intros (_ & _ & ch' & [= <-] & Herr).
                 rewrite Hupd in Herr. by injection Herr as <-.
           ++ repeat split; try done. by exists ch.
        -- eexists. split; [done|]. simpl.
           split; [done|]. split; [done|]. split; [done|]. split.
           ++ intros err'. split; [done|].
              intros (_ & _ & ch' & [= <-] & Herr).
              rewrite Hupd in Herr. discriminate Herr.
           ++ split; [done|]. apply toEntryTag_small.
      * eexists. split; [done|]. simpl.
        split; [done|]. split; [done|]. split; [done|]. split.
        -- intros err'. split; [done|]. by intros (_ & ? & _).
        -- split; [done|]. apply toEntryTag_small.
    + eexists. split; [done|]. simpl.
      split; [done|]. split; [done|]. split; [done|]. split.
      * intros err'. split; [done|]. by intros (? & _).
      * split; [done|]. apply toEntryTag_small.
Qed.

(** C8, as amended.  In every reachable state the id the tag map holds
    for a name is the tag id of an index that holds the name, so
    [tags[tagMap[name]] == name] whenever the table has no more names than
    the tag type has values.  In every reachable state
    [tagMap[tags[i]] == i] (as a tag id) at every index [i] whose name does
    not occur again further on in the table, hence at every index when the
    names are pairwise distinct.  Every step leads to a reachable state
    again and keeps the table it found as a prefix of the new one. *)
Theorem tag_table_invariant (im : IngestMuxer) :
  reachable CheckTag im ->
  (forall name t, tagMap im !! name = Some t ->
     (exists i, tags im !! i = Some name /\ t = toEntryTag i) /\
     ((N.of_nat (length (tags im)) <= tagModulus)%N ->
        tags im !! N.to_nat t = Some name)) /\
  (forall i name, tags im !! i = Some name ->
     (forall j, i < j -> tags im !! j ≠ Some name) ->
     tagMap im !! name = Some (toEntryTag i)) /\
  (NoDup (tags im) -> (N.of_nat (length (tags im)) <= tagModulus)%N ->
     forall i name, tags im !! i = Some name ->
                    tagMap im !! name = Some (N.of_nat i)) /\
  (forall im', step CheckTag im im' ->
     reachable CheckTag im' /\ tags im `prefix_of` tags im').
Proof.
  intros Hreach.
  pose proof (reachable_inv CheckTag im Hreach) as (Hmap & _).
  split; [|split; [|split]].
  - intros name t Ht. rewrite Hmap in Ht. split.
    + by eapply tagMap_index.
    + intros Hfit. by apply tagMap_to_tags.
  - intros i name Hi Hmax. rewrite Hmap. by apply tags_to_tagMap.
  - intros Hnd Hfit i name Hi. rewrite Hmap.
    rewrite (tags_to_tagMap (tags im) name i Hi).
    + f_equal. apply toEntryTag_small. apply lookup_lt_Some in Hi. lia.
    + intros j Hlt. by eapply NoDup_last_occurrence.
  - intros im' Hstep. split.
    + by eapply reachable_step.
    + by eapply step_tags_prefix.
Qed.

(** C10.  [newTagTrans] returns [ErrTagMapInvalid] on an empty tag map;
    a translator it returns has the length of the tag map, which is at
    least 1; it does return one when the connection knows every name and
    every local id lies below the size of the map.  Every translator
    installed in a reachable muxer is therefore non-empty, and [Translate]
    returns on it for every tag: for an out-of-range tag the fallback
    [tt[0]] exists and comes back with [false]. *)
Theorem installed_translator_nonempty :
  (forall m order ig,
     size m = 0 -> newTagTrans m order ig = Some (inl ErrTagMapInvalid)) /\
  (forall m order ig (tr : list N),
     newTagTrans m order ig = Some (inr tr) ->
     length tr = size m /\ 1 <= length tr) /\
  (forall (m : gmap string N) order ig,
     size m ≠ 0 ->
     Forall (fun kv => is_Some (conn_GetTag ig kv.1) /\
                       N.to_nat kv.2 < size m) order ->
     exists tr, newTagTrans m order ig = Some (inr tr)) /\
  (forall im, reachable CheckTag im ->
     forall k (tr : list N), tagTranslators im !! k = Some (Some tr) ->
       1 <= length tr /\
       forall t, exists r ok,
         Translate tr t = Some (r, ok) /\
         (t ≠ GravwellTagId -> length tr <= N.to_nat t ->
            tr !! 0 = Some r /\ ok = false)).
Proof.
  split; [apply newTagTrans_empty|]. split; [apply newTagTrans_length|]. split.
  - intros m order ig Hsz Hall. unfold newTagTrans.
    rewrite length_replicate. rewrite decide_False by done.
    apply fillTagTrans_total. eapply Forall_impl; [exact Hall|].
    intros kv [? ?]. by rewrite length_replicate.
  - intros im Hreach k tr Hk.
    pose proof (reachable_inv CheckTag im Hreach) as (_ & _ & _ & Hne).
    rewrite Forall_lookup in Hne. specialize (Hne k _ Hk).
    destruct tr as [|hd rest]; [done|]. split; [simpl; lia|].
    intros t. unfold Translate.
    destruct (decide (t = GravwellTagId)) as [->|Ht].
    { exists GravwellTagId, true. split; [done|]. done. }
    destruct (decide (length (hd :: rest) <= N.to_nat t)) as [Hge|Hlt].
    + exists hd, false. done.
    + destruct (lookup_lt_is_Some_2 (hd :: rest) (N.to_nat t)) as [r Hr];
        [lia|].
      exists r, true. rewrite Hr. split; [done|]. intros _ ?. lia.
Qed.

End MuxerTheorems.

(** ** The definitions run on concrete inputs *)

Lemma builtMuxer_reachable (check : string -> option error) :
  reachable (H := uint16Tags) check builtMuxer.
Proof.
  exists twoTargets, (inl ErrNotReady), builtMuxer. split; [reflexivity|].
  apply rtc_refl.
Qed.

Lemma startedMuxer_reachable (check : string -> option error) :
  reachable (H := uint16Tags) check startedMuxer.
Proof.
  eapply reachable_step; [apply builtMuxer_reachable|].
  apply step_Start. reflexivity.
Qed.

Lemma installedMuxer_reachable (check : string -> option error)
    (ig : IngestConnection) (tr : list N) :
  newTagTrans (tagMap startedMuxer) (map_to_list (tagMap startedMuxer)) ig
    = Some (inr tr) ->
  reachable (H := uint16Tags) check (installedMuxer ig tr).
Proof.
  intros Hnew. eapply reachable_step; [apply startedMuxer_reachable|].
  unfold installedMuxer.
  by apply (step_install check startedMuxer 1 ig (tagMap startedMuxer)
              (map_to_list (tagMap startedMuxer)) tr).
Qed.

Lemma oneUpMuxer_reachable (check : string -> option error) :
  reachable (H := uint16Tags) check oneUpMuxer.
Proof.
  eapply reachable_step.
  - apply (installedMuxer_reachable check upConn [7%N]). by vm_compute.
  - apply step_other. by repeat split.
Qed.

Lemma oneDownMuxer_reachable (check : string -> option error) :
  reachable (H := uint16Tags) check oneDownMuxer.
Proof.
  eapply reachable_step.
  - apply (installedMuxer_reachable check downConn [3%N]). by vm_compute.
  - apply step_other. by repeat split.
Qed.

Lemma repeatedTagMuxer_reachable (check : string -> option error) :
  reachable (H := uint16Tags) check repeatedTagMuxer.
Proof.
  exists repeatedTag, (inl ErrNotReady), repeatedTagMuxer.
  split; [reflexivity|]. apply rtc_refl.
Qed.

Lemma cachedMuxer_reachable (check : string -> option error) :
  reachable (H := uint16Tags) check cachedMuxer.
Proof.
  exists cachedConfig, (inr smallCache), cachedMuxer.
  split; [reflexivity|]. apply rtc_refl.
Qed.

Lemma push_overflow_threshold_witness :
  snd (push queue256 (Some sampleEntry) []) = None /\
  length (lst (fst (push queue256 (Some sampleEntry) []))) = 257.
Proof.
  pose proof (push_overflow_threshold queue256 (Some sampleEntry) []) as [_ Hp].
  assert (Some sampleEntry ≠ None \/ ([] : list (option Entry)) ≠ []) as Hq
    by (left; discriminate).
  destruct (Hp Hq) as (_ & _ & H256).
  apply H256. reflexivity.
Defined.

Lemma WriteEntry_WriteBatch_spec_witness :
  WriteEntry builtMuxer (Some sampleEntry)
    = Done (builtMuxer, Some ErrNotRunning) /\
  (exists im', WriteEntry startedMuxer (Some sampleEntry) = Done (im', None) /\
               chan_buf (eChan im') = [sampleEntry] /\
               chan_buf (bChan im') = []) /\
  (exists im', WriteBatch startedMuxer [Some sampleEntry] = Done (im', None) /\
               chan_buf (bChan im') = [[Some sampleEntry]] /\
               chan_buf (eChan im') = []).
Proof.
  pose proof (WriteEntry_WriteBatch_spec builtMuxer sampleEntry
                [Some sampleEntry]) as (_ & _ & Hnot & _).
  pose proof (WriteEntry_WriteBatch_spec startedMuxer sampleEntry
                [Some sampleEntry]) as (_ & _ & _ & Hrun).
  destruct Hnot as [Hentry _]; [discriminate|].
  destruct Hrun as (Hsend & _ & Hbatch & _); [reflexivity|].
  split; [exact Hentry|]. split.
  - destruct Hsend as (im' & Hw & Hbuf & _ & Hb & _); [vm_compute; lia|].
    exists im'. split; [exact Hw|]. split; [exact Hbuf|]. by rewrite Hb.
  - destruct Hbatch as (im' & Hw & Hbuf & _ & He & _);
      [discriminate | vm_compute; lia |].
    exists im'. split; [exact Hw|]. split; [exact Hbuf|]. by rewrite He.
Defined.

(** One slot of the connection table is empty, the connection in the other
    slot reports [ErrNotRunning]: every [Sync] call made reports
    [ErrNotRunning], and [SyncContext] returns success. *)
Lemma SyncContext_empty_slot :
  reachable (H := uint16Tags) checkNonEmpty oneDownMuxer /\
  igst oneDownMuxer = [None; Some downConn] /\
  (forall k v, igst oneDownMuxer !! k = Some (Some v) ->
               conn_Sync v = Some ErrNotRunning) /\
  SyncContext oneDownMuxer [] = SyncReturns None [CallSync 1] /\
  forall calls,
    SyncContext oneDownMuxer [] ≠ SyncReturns (Some ErrAllConnsDown) calls.
Proof.
  split; [apply oneDownMuxer_reachable|]. split; [reflexivity|]. split.
  - intros [|[|k]] v Hk; simpl in Hk; try done. by injection Hk as <-.
  - split; [reflexivity|]. intros calls. discriminate.
Qed.

Lemma SyncContext_AllConnsDown_witness :
  SyncContext startedMuxer [] = SyncReturns (Some ErrAllConnsDown) [] /\
  SyncContext (set_conns oneDownMuxer [Some downConn] [Some [3%N]]) []
    = SyncReturns (Some ErrAllConnsDown) [CallSync 0].
Proof.
  split.
  - apply (SyncContext_AllConnsDown startedMuxer []); reflexivity.
  - apply (SyncContext_AllConnsDown
             (set_conns oneDownMuxer [Some downConn] [Some [3%N]]) []).
    + intros [Hhot _]. discriminate Hhot.
    + reflexivity.
    + apply Forall_cons. split; [by exists downConn|]. apply Forall_nil_2.
Defined.

(** The cache cannot store the longer tag list: the name is absent and
    passes [CheckTag], the table has length 1, and [NegotiateTag] returns
    id 0 together with the error. *)
Lemma NegotiateTag_cache_failure :
  reachable (H := uint16Tags) checkNonEmpty cachedMuxer /\
  checkNonEmpty "b" = None /\
  tagMap cachedMuxer !! "b" = None /\
  length (tags cachedMuxer) = 1 /\
  exists r, NegotiateTag (H := uint16Tags) checkNonEmpty cachedMuxer "b" = Some r /\
            nr_tg r = 0%N /\
            nr_tg r ≠ N.of_nat (length (tags cachedMuxer)) /\
            nr_err r = Some (errorsNew "no space left on device") /\
            tags (nr_mux r) = ["a"; "b"].
Proof.
  split; [apply cachedMuxer_reachable|]. split; [reflexivity|].
  split; [by vm_compute|]. split; [reflexivity|].
  eexists. split; [by vm_compute|]. simpl.
  split; [done|]. split; [done|]. done.
Qed.

Lemma NegotiateTag_spec_witness :
  NegotiateTag (H := uint16Tags) checkNonEmpty oneUpMuxer "default"
    = Some {| nr_mux := oneUpMuxer; nr_tg := 0%N; nr_err := None;
              nr_calls := [] |} /\
  (exists r, NegotiateTag (H := uint16Tags) checkNonEmpty oneUpMuxer "syslog"
               = Some r /\
             tags (nr_mux r) = ["default"; "syslog"] /\
             tagMap (nr_mux r) !! "syslog" = Some 1%N) /\
  (exists r, NegotiateTag (H := uint16Tags) checkNonEmpty cachedMuxer "b"
               = Some r /\
             nr_err r = Some (errorsNew "no space left on device")).
Proof.
  destruct (NegotiateTag_spec (H := uint16Tags) checkNonEmpty oneUpMuxer
              "default" (oneUpMuxer_reachable _) eq_refl) as [Hpresent _].
  destruct (NegotiateTag_spec (H := uint16Tags) checkNonEmpty oneUpMuxer
              "syslog" (oneUpMuxer_reachable _) eq_refl) as [_ Habsent].
  destruct (NegotiateTag_spec (H := uint16Tags) checkNonEmpty cachedMuxer
              "b" (cachedMuxer_reachable _) eq_refl) as [_ Hfails].
  split; [|split].
  - apply Hpresent. by vm_compute.
  - destruct Habsent as (r & Hr & Htags & _ & Hmap & _); [by vm_compute|].
    exists r. split; [exact Hr|]. split; [exact Htags|]. exact Hmap.
  - destruct Hfails as (r & Hr & _ & _ & _ & Herr & _); [by vm_compute|].
    exists r. split; [exact Hr|]. apply Herr.
    split; [reflexivity|]. split; [reflexivity|].
    exists smallCache. split; reflexivity.
Defined.

(** Built from the tags ["a"; "a"], the map sends the name at index 0 to
    index 1. *)
Lemma repeated_tag_index :
  reachable (H := uint16Tags) checkNonEmpty repeatedTagMuxer /\
  tags repeatedTagMuxer !! 0 = Some "a" /\
  tagMap repeatedTagMuxer !! "a" = Some 1%N /\
  tagMap repeatedTagMuxer !! "a" ≠ Some (N.of_nat 0).
Proof.
  split; [apply repeatedTagMuxer_reachable|]. split; [reflexivity|].
  assert (tagMap repeatedTagMuxer !! "a" = Some 1%N) as Hm by (by vm_compute).
  split; [exact Hm|]. rewrite Hm. discriminate.
Qed.

Lemma tag_table_invariant_witness :
  tags oneUpMuxer !! N.to_nat 0 = Some "default" /\
  tagMap oneUpMuxer !! "default" = Some 0%N /\
  tags oneUpMuxer `prefix_of` tags (goDead oneUpMuxer).
Proof.
  destruct (tag_table_invariant (H := uint16Tags) checkNonEmpty oneUpMuxer
              (oneUpMuxer_reachable _)) as (Hname & Hidx & _ & Hstep).
  split; [|split].
  - apply (Hname "default" 0%N); [by vm_compute | by vm_compute].
  - apply (Hidx 0 "default"); [reflexivity|].
    intros [|j] Hj; [lia|]. done.
  - apply Hstep. apply step_other. by repeat split.
Defined.

Lemma installed_translator_nonempty_witness :
  1 <= length [7%N] /\
  exists r ok, Translate (H := uint16Tags) [7%N] 5%N = Some (r, ok) /\
               ([7%N] : list N) !! 0 = Some r /\ ok = false.
Proof.
  destruct (installed_translator_nonempty (H := uint16Tags) checkNonEmpty)
    as (_ & _ & _ & Hinst).
  destruct (Hinst oneUpMuxer (oneUpMuxer_reachable _) 1 [7%N] eq_refl)
    as [Hlen Htr].
  split; [exact Hlen|].
  destruct (Htr 5%N) as (r & ok & Hr & Hfb).
  exists r, ok. split; [exact Hr|]. apply Hfb; [discriminate | simpl; lia].
Defined.

(** * Further properties of the code *)

(** ** The emergency queue as a FIFO *)

Lemma drainQueue_items (items : list emStruct) (fuel : nat) :
  length items < fuel ->
  drainQueue fuel {| lst := items |} =
    Some ({| lst := [] |}, concat (itemEntries <$> items)).
Proof.
  revert items. induction fuel as [|fuel IH]; intros items Hlt; [lia|].
  destruct items as [|elm rest]; simpl; [done|].
  rewrite IH by (simpl in Hlt; lia). unfold itemEntries.
  rewrite <- app_assoc. do 3 f_equal.
  destruct (em_ents elm); [done|].
  by rewrite decide_True by (simpl; lia).
Qed.

(** X1.  Emptying the emergency queue as [Close] does takes the items from
    the head: after any batch of accepted pushes onto a queue, the drain
    loop hands the entries of the old items and then those of the pushed
    items to the cache, each item's single entry before its batch, and
    leaves the queue empty. *)
Theorem drainQueue_fifo (q : emergencyQueue) (e : option Entry)
    (ents : list (option Entry)) (fuel : nat) :
  e ≠ None \/ ents ≠ [] ->
  length (lst q) <= maxEmergencyListSize ->
  S (length (lst q)) < fuel ->
  drainQueue fuel (fst (push q e ents)) =
    Some ({| lst := [] |},
          concat (itemEntries <$> lst q) ++
          (if e is Some e' then [Some e'] else []) ++ ents).
Proof.
  intros Hp Hlen Hfuel. rewrite (push_payload q e ents Hp).
  rewrite decide_False by lia. simpl.
  rewrite drainQueue_items by (rewrite length_app; simpl; lia).
  rewrite fmap_app, concat_app. simpl. unfold itemEntries at 2. simpl.
  by rewrite app_nil_r.
Qed.

Lemma runQueueOp_length (q : emergencyQueue) (op : queueOp) :
  length (lst q) <= S maxEmergencyListSize ->
  length (lst (runQueueOp q op)) <= S maxEmergencyListSize.
Proof.
  intros Hlen. destruct op as [e ents|]; simpl.
  - unfold push. destruct (_ && _); [done|].
    case_decide; simpl; [done|]. rewrite length_app. simpl. lia.
  - unfold pop. destruct (lst q) eqn:Hq; simpl; [by rewrite Hq|].
    simpl in Hlen. lia.
Qed.

(** X2.  Whatever sequence of pushes and pops is applied to a new
    emergency queue, it never holds more than 257 items (one more than
    [maxEmergencyListSize]), and a pop never lengthens it. *)
Theorem emergencyQueue_bounded (ops : list queueOp) :
  length (lst (fold_left runQueueOp ops newEmergencyQueue)) <= 257 /\
  forall q, length (lst (fst (pop q))) <= length (lst q).
Proof.
  split.
  - assert (forall q, length (lst q) <= S maxEmergencyListSize ->
              length (lst (fold_left runQueueOp ops q)) <= S maxEmergencyListSize)
      as Hall.
    { induction ops as [|op ops IH]; intros q Hq; simpl; [done|].
      apply IH. by apply runQueueOp_length. }
    apply (Hall newEmergencyQueue). simpl. lia.
  - intros q. unfold pop. destruct (lst q) eqn:Hq; simpl; [by rewrite Hq|lia].
Qed.

(** ** Tag lookup *)

Section TagLookupFacts.
Context `{EntryPackage}.
Variable CheckTag : string -> option error.

Lemma lastIndexOf_snoc_other (k name : string) (ts : list string) :
  k ≠ name -> lastIndexOf k (ts ++ [name]) = lastIndexOf k ts.
Proof.
  intros Hne. induction ts as [|v rest IH]; simpl.
  - by rewrite decide_False.
  - by rewrite IH.
Qed.

(** X3.  In a reachable muxer [GetTag] succeeds exactly for the names of
    the tag table and reports [ErrTagNotFound] with id 0 for every other
    name; a successful answer is the id the tag map holds. *)
Theorem GetTag_known_names (im : IngestMuxer) (name : string) :
  reachable CheckTag im ->
  (snd (GetTag im name) = None <-> name ∈ tags im) /\
  (name ∉ tags im -> GetTag im name = (0%N, Some ErrTagNotFound)) /\
  (forall t, GetTag im name = (t, None) <-> tagMap im !! name = Some t).
Proof.
  intros Hreach.
  pose proof (reachable_inv CheckTag im Hreach) as (Hmap & _).
  assert (tagMap im !! name = None <-> name ∉ tags im) as Hnone.
  { rewrite Hmap, assignTags_lookup. rewrite <- lastIndexOf_None.
    destruct (lastIndexOf name (tags im)); [done|]. by rewrite lookup_empty. }
  unfold GetTag. split; [|split].
  - destruct (tagMap im !! name) as [t|] eqn:Ht; simpl.
    + split; [|done]. intros _.
      destruct (decide (name ∈ tags im)) as [|Hn]; [done|].
      apply Hnone in Hn. congruence.
    + split; [done|]. intros Hin. exfalso. by apply (proj1 Hnone).
  - intros Hn. apply Hnone in Hn. by rewrite Hn.
  - intros t. destruct (tagMap im !! name) as [t'|]; split; congruence.
Qed.

Lemma lookupScan_found (order : list (string * N)) (tg : N) (k : string) :
  lookupScan order tg = (k, true) -> (k, tg) ∈ order.
Proof.
  induction order as [|[k' v'] rest IH]; simpl; [done|].
  case_decide as Hv.
  - intros [= ->]. subst. left.
  - intros Hl. right. by apply IH.
Qed.

Lemma lookupScan_first (order : list (string * N)) (tg : N) (k : string) :
  (k, tg) ∈ order -> exists k', lookupScan order tg = (k', true).
Proof.
  induction order as [|[k' v'] rest IH]; simpl; intros Hin.
  - by apply elem_of_nil in Hin.
  - case_decide as Hv; [by eexists|].
    apply elem_of_cons in Hin as [[= -> ->]|Hin]; [done|]. by apply IH.
Qed.

Lemma lookupScan_absent (order : list (string * N)) (tg : N) :
  (forall k, (k, tg) ∉ order) -> lookupScan order tg = ("", false).
Proof.
  induction order as [|[k' v'] rest IH]; simpl; intros Hno; [done|].
  case_decide as Hv.
  - subst. exfalso. apply (Hno k'). left.
  - apply IH. intros k Hin. apply (Hno k). by right.
Qed.

(** X4.  [LookupTag] inverts [GetTag].  Whatever the iteration order of
    the map: a name [LookupTag] returns for an id is a name [GetTag] maps
    to that id; an id no name has gives the empty name and [false]; and
    in a reachable muxer whose table fits the tag type, the id [GetTag]
    gives for a name is looked up back to that very name. *)
Theorem LookupTag_GetTag (im : IngestMuxer) (order : list (string * N))
    (name : string) (t : N) :
  order ≡ₚ map_to_list (tagMap im) ->
  (LookupTag im order t = (name, true) -> GetTag im name = (t, None)) /\
  ((forall k, tagMap im !! k ≠ Some t) -> LookupTag im order t = ("", false)) /\
  (reachable CheckTag im ->
   (N.of_nat (length (tags im)) <= tagModulus)%N ->
   GetTag im name = (t, None) -> LookupTag im order t = (name, true)).
Proof.
  intros Hperm.
  assert (forall k v, (k, v) ∈ order <-> tagMap im !! k = Some v) as Hin.
  { intros k v. rewrite Hperm. apply elem_of_map_to_list. }
  unfold LookupTag, GetTag. split; [|split].
  - intros Hl. apply lookupScan_found, Hin in Hl. by rewrite Hl.
  - intros Hno. apply lookupScan_absent. intros k Hk. by apply Hin, Hno in Hk.
  - intros Hreach Hfit Hget.
    assert (tagMap im !! name = Some t) as Hname.
    { destruct (tagMap im !! name); by simplify_eq. }
    destruct (lookupScan_first order t name) as [k' Hk']; [by apply Hin|].
    rewrite Hk'. f_equal.
    apply lookupScan_found, Hin in Hk'.
    pose proof (reachable_inv CheckTag im Hreach) as (Hmap & _).
    rewrite Hmap in Hk', Hname.
    apply tagMap_to_tags in Hk'; [|done].
    apply tagMap_to_tags in Hname; [|done]. congruence.
Qed.

(** X5.  A tag that [NegotiateTag] hands out can be fetched with [GetTag]
    afterwards, and negotiating it again gives the same id, changes
    nothing and calls no connection.  That holds after a failed store
    into the cache as well: the retry finds the name in the table and
    returns its id without any connection having been asked. *)
Theorem NegotiateTag_then_lookup (im : IngestMuxer) (name : string)
    (r : NegotiateResult) :
  CheckTag name = None ->
  NegotiateTag CheckTag im name = Some r ->
  exists t,
    tagMap (nr_mux r) !! name = Some t /\
    GetTag (nr_mux r) name = (t, None) /\
    NegotiateTag CheckTag (nr_mux r) name =
      Some {| nr_mux := nr_mux r; nr_tg := t; nr_err := None;
              nr_calls := [] |} /\
    (nr_err r = None -> nr_tg r = t).
Proof.
  intros Hcheck Hneg.
  assert (exists t, tagMap (nr_mux r) !! name = Some t /\
                    (nr_err r = None -> nr_tg r = t)) as (t & Ht & Htg).
  { unfold NegotiateTag in Hneg. rewrite Hcheck in Hneg.
    destruct (tagMap im !! name) as [t0|] eqn:Hold.
    - injection Hneg as <-. by exists t0.
    - assert (assignTags 0 (tags im ++ [name]) (tagMap im) !! name =
              Some (toEntryTag (length (tags im)))) as Hnew.
      { by rewrite assignTags_lookup, lastIndexOf_snoc. }
      exists (toEntryTag (length (tags im))). simpl in Hneg.
      rewrite Hnew in Hneg. simpl in Hneg.
      destruct (negotiateConns _ _ _ _ _) as [[tts calls]|];
        destruct (cacheEnabled im && cacheFileBacked im);
        try destruct (cache im) as [ch|];
        try destruct (cache_UpdateStoredTagList ch _);
        try done; injection Hneg as <-; simpl; done. }
  exists t. split; [done|]. split; [|split; [|done]].
  - unfold GetTag. by rewrite Ht.
  - unfold NegotiateTag. by rewrite Hcheck, Ht.
Qed.

(** X6.  Ids are stable: in a reachable muxer, negotiating a tag leaves
    the id of every name already in the tag map as it was. *)
Theorem NegotiateTag_keeps_ids (im : IngestMuxer) (name other : string)
    (r : NegotiateResult) (t : N) :
  reachable CheckTag im ->
  NegotiateTag CheckTag im name = Some r ->
  tagMap im !! other = Some t ->
  tagMap (nr_mux r) !! other = Some t.
Proof.
  intros Hreach Hneg Hother.
  pose proof (reachable_inv CheckTag im Hreach) as (Hmap & _).
  unfold NegotiateTag in Hneg.
  destruct (CheckTag name); [by injection Hneg as <-|].
  destruct (tagMap im !! name) eqn:Hname; [by injection Hneg as <-|].
  assert (other ≠ name) as Hne by congruence.
  assert (assignTags 0 (tags im ++ [name]) (tagMap im) !! other = Some t)
    as Hnew.
  { rewrite assignTags_lookup, lastIndexOf_snoc_other by done.
    destruct (lastIndexOf other (tags im)) as [j|] eqn:Hlast; [|done].
    by rewrite Hmap, assignTags_lookup, Hlast in Hother. }
  simpl in Hneg.
  destruct (negotiateConns _ _ _ _ _) as [[tts calls]|];
    destruct (cacheEnabled im && cacheFileBacked im);
    try destruct (cache im) as [ch|];
    try destruct (cache_UpdateStoredTagList ch _);
    try done; injection Hneg as <-; simpl; done.
Qed.

End TagLookupFacts.

(** ** Lifecycle and counters *)

Section LifecycleFacts.
Context `{EntryPackage}.

(** X7.  [Start] succeeds exactly on a muxer in state [empty] with no
    connection slots.  It then gives one empty connection slot and one
    empty translator slot per destination, counts every destination as
    dead, moves to [running] and leaves tags and channels alone; a second
    [Start] is refused with [ErrNotReady] and changes nothing. *)
Theorem Start_once (im : IngestMuxer) :
  (snd (Start im) = None <-> state im = empty /\ igst im = []) /\
  (snd (Start im) ≠ None -> Start im = (im, Some ErrNotReady)) /\
  (snd (Start im) = None ->
     let im' := fst (Start im) in
     state im' = running /\
     igst im' = replicate (length (dests im)) None /\
     tagTranslators im' = replicate (length (dests im)) None /\
     connDead im' = toInt32 (length (dests im)) /\
     connHot im' = connHot im /\
     tags im' = tags im /\ tagMap im' = tagMap im /\
     eChan im' = eChan im /\ bChan im' = bChan im /\
     Start im' = (im', Some ErrNotReady)).
Proof.
  unfold Start.
  destruct (decide (state im = empty)) as [Hst|Hst];
    destruct (igst im) as [|c cs] eqn:Hig; simpl.
  - rewrite bool_decide_false by (intros ?; done). simpl.
    split; [done|]. split; [done|]. intros _. repeat split.
  - rewrite bool_decide_false by (intros ?; done). simpl.
    split; [split; [done|]; by intros [_ ?]|]. split; [done|]. done.
  - rewrite bool_decide_true by done. simpl.
    split; [split; [done|]; by intros [? _]|]. split; [done|]. done.
  - rewrite bool_decide_true by done. simpl.
    split; [split; [done|]; by intros [? _]|]. split; [done|]. done.
Qed.

Lemma wrapInt32_id (z : Z) :
  (-2147483648 <= z < 2147483648)%Z -> wrapInt32 z = z.
Proof.
  intros Hz. unfold wrapInt32.
  rewrite Z.mod_small by lia. lia.
Qed.

(** X8.  The accessors of a new muxer.  Before [Start], [Hot], [Dead] and
    [Size] all answer [-1] with [ErrNotRunning]; after [Start], which
    always succeeds on a new muxer, [Hot] is 0 and [Dead] and [Size] are
    the number of destinations (fewer than 2^31). *)
Theorem accessors_after_Start (c : MuxerConfig) (nc : error + IngestCache)
    (im : IngestMuxer) :
  newIngestMuxer c nc = inr im ->
  (Z.of_nat (length (Destinations c)) < 2147483648)%Z ->
  Hot im = ((-1)%Z, Some ErrNotRunning) /\
  Dead im = ((-1)%Z, Some ErrNotRunning) /\
  Size im = ((-1)%Z, Some ErrNotRunning) /\
  snd (Start im) = None /\
  Hot (fst (Start im)) = (0%Z, None) /\
  Dead (fst (Start im)) = (Z.of_nat (length (Destinations c)), None) /\
  Size (fst (Start im)) = (Z.of_nat (length (Destinations c)), None).
Proof.
  intros Hnew Hlen.
  assert (exists ts ch, im = freshMuxer c ts ch) as (ts & ch & ->).
  { unfold newIngestMuxer in Hnew. destruct (EnableCache c).
    - destruct nc as [|ch]; [done|].
      destruct (initialTags c ch) as [|ts]; [done|].
      destruct (cache_UpdateStoredTagList ch ts); [done|].
      injection Hnew as <-. by eexists _, _.
    - injection Hnew as <-. by eexists _, _. }
  unfold Hot, Dead, Size, Start. simpl.
  repeat split. unfold toInt32. by rewrite wrapInt32_id by lia.
Qed.

Lemma runConnEvent_counters (im : IngestMuxer) (ev : connEvent) :
  (-2147483648 < connHot im < 2147483647)%Z ->
  (-2147483648 < connDead im < 2147483647)%Z ->
  (connHot (runConnEvent im ev) + connDead (runConnEvent im ev)
     = connHot im + connDead im)%Z /\
  (Z.abs (connHot (runConnEvent im ev) - connHot im) = 1)%Z /\
  (Z.abs (connDead (runConnEvent im ev) - connDead im) = 1)%Z /\
  dests (runConnEvent im ev) = dests im.
Proof.
  intros Hh Hd.
  destruct ev; unfold runConnEvent, goHot, goDead, set_counters;
    cbn [connHot connDead dests]; rewrite !wrapInt32_id by lia;
    repeat split; lia.
Qed.

(** X9.  The counters of the connection tasks.  After a successful
    [Start], whatever sequence of [goHot] and [goDead] calls follows,
    [connHot + connDead] equals the number of destinations, as long as the
    number of destinations plus the number of calls stays below 2^31;
    and a [goDead] undoes a [goHot]. *)
Theorem counters_sum (im : IngestMuxer) (evs : list connEvent) :
  snd (Start im) = None ->
  connHot im = 0%Z ->
  (Z.of_nat (length (dests im)) + Z.of_nat (length evs) < 2147483647)%Z ->
  let im' := fold_left runConnEvent evs (fst (Start im)) in
  (connHot im' + connDead im' = Z.of_nat (length (dests im')))%Z /\
  connHot (goDead (goHot im')) = connHot im' /\
  connDead (goDead (goHot im')) = connDead im'.
Proof.
  intros Hstart Hhot Hlen.
  pose proof (proj2 (proj2 (Start_once im)) Hstart)
    as (_ & _ & _ & Hdead & Hhot' & _).
  simpl in Hdead, Hhot'.
  assert (dests (fst (Start im)) = dests im) as Hdests.
  { unfold Start. by destruct (_ || _). }
  unfold toInt32 in Hdead. rewrite wrapInt32_id in Hdead by lia.
  rewrite Hhot in Hhot'.
  assert (forall evs0 im0,
            (Z.abs (connHot im0) + Z.of_nat (length evs0) < 2147483647)%Z ->
            (Z.abs (connDead im0) + Z.of_nat (length evs0) < 2147483647)%Z ->
            let im1 := fold_left runConnEvent evs0 im0 in
            (connHot im1 + connDead im1 = connHot im0 + connDead im0)%Z /\
            (Z.abs (connHot im1) <= Z.abs (connHot im0) + Z.of_nat (length evs0))%Z /\
            (Z.abs (connDead im1) <= Z.abs (connDead im0) + Z.of_nat (length evs0))%Z /\
            dests im1 = dests im0) as Hgen.
  { induction evs0 as [|ev evs0 IH]; intros im0 Hh Hd; simpl in *.
    - repeat split; lia.
    - destruct (runConnEvent_counters im0 ev) as (Hs & Hdh & Hdd & Hds);
        [lia|lia|].
      destruct (IH (runConnEvent im0 ev)) as (Hs' & Hh' & Hd' & Hds');
        [lia|lia|].
      repeat split; [lia|lia|lia|congruence]. }
  destruct (Hgen evs (fst (Start im))) as (Hs & Hh & Hd & Hds);
    [rewrite Hhot'; lia | rewrite Hdead; lia |].
  simpl. split; [|split].
  - rewrite Hs, Hds, Hhot', Hdead, Hdests. lia.
  - simpl. rewrite Hhot', Hdead in *.
    rewrite (wrapInt32_id (connHot _ + 1)) by lia.
    rewrite wrapInt32_id by lia. lia.
  - simpl. rewrite Hhot', Hdead in *.
    rewrite (wrapInt32_id (connDead _ - 1)) by lia.
    rewrite wrapInt32_id by lia. lia.
Qed.

(** ** Construction *)

(** X10.  The uniform constructor refuses an empty ingest key with
    [ErrEmptyAuth], before anything else, and an empty destination list
    with [ErrNoTargets].  A muxer it builds has one target per configured
    address, in the configured order, each with the shared key as its
    secret. *)
Theorem newUniformIngestMuxerEx_targets (c : UniformMuxerConfig.t)
    (nc : error + IngestCache) :
  (UniformMuxerConfig.Auth c = "" ->
     newUniformIngestMuxerEx c nc = inl ErrEmptyAuth) /\
  (UniformMuxerConfig.Auth c ≠ "" -> UniformMuxerConfig.Destinations c = [] ->
     newUniformIngestMuxerEx c nc = inl ErrNoTargets) /\
  (forall im, newUniformIngestMuxerEx c nc = inr im ->
     UniformMuxerConfig.Auth c ≠ "" /\
     dests im ≠ [] /\
     Address <$> dests im = UniformMuxerConfig.Destinations c /\
     Forall (fun tgt => Secret tgt = UniformMuxerConfig.Auth c) (dests im)).
Proof.
  unfold newUniformIngestMuxerEx. split; [|split].
  - intros ->. done.
  - intros Hauth ->. rewrite decide_False; [done|].
    destruct (UniformMuxerConfig.Auth c); [done|]. simpl. lia.
  - intros im Hnew.
    destruct (decide (String.length (UniformMuxerConfig.Auth c) = 0))
      as [|Hauth]; [done|].
    rewrite length_fmap in Hnew.
    destruct (decide (length (UniformMuxerConfig.Destinations c) = 0))
      as [|Hdst]; [done|].
    assert (dests im = (fun a => {| Address := a;
                             Secret := UniformMuxerConfig.Auth c |})
                         <$> UniformMuxerConfig.Destinations c) as ->.
    { unfold newIngestMuxer in Hnew. simpl in Hnew.
      destruct (UniformMuxerConfig.EnableCache c).
      - destruct nc as [|ch]; [done|].
        destruct (initialTags _ ch) as [|ts]; [done|].
        destruct (cache_UpdateStoredTagList ch ts); [done|].
        by injection Hnew as <-.
      - by injection Hnew as <-. }
    split; [by intros Heq; rewrite Heq in Hauth|]. split; [|split].
    + destruct (UniformMuxerConfig.Destinations c); [done|]. done.
    + rewrite <- list_fmap_compose.
      generalize (UniformMuxerConfig.Destinations c). intros l.
      induction l as [|a l IH]; [done|]. simpl. f_equal. exact IH.
    + apply Forall_fmap. by apply Forall_true.
Qed.



End LifecycleFacts.

(** ** Tags at construction *)

Section ConstructionFacts.
Context `{EntryPackage}.

Lemma mergeCachedTags_step_prefix (ct : list string) (lt : string) :
  ct `prefix_of` (if bool_decide (lt ∈ ct) then ct else ct ++ [lt]).
Proof. case_bool_decide; [done|]. by apply prefix_app_r. Qed.

(** X12.  Merging the configured tags into the tags stored in the cache
    keeps the stored tags where they are (they are a prefix of the
    result), adds every configured tag that is missing, adds nothing
    else, and does not introduce a repetition. *)
Theorem mergeCachedTags_spec (ctags localTags : list string) :
  ctags `prefix_of` mergeCachedTags ctags localTags /\
  (forall t, t ∈ mergeCachedTags ctags localTags <->
             t ∈ ctags \/ t ∈ localTags) /\
  (NoDup ctags -> NoDup (mergeCachedTags ctags localTags)).
Proof.
  unfold mergeCachedTags. revert ctags.
  induction localTags as [|lt rest IH]; intros ctags; simpl.
  - split; [done|]. split; [|done]. intros t. split; [by left|].
    intros [?|Hin]; [done|]. by apply elem_of_nil in Hin.
  - destruct (IH (if bool_decide (lt ∈ ctags) then ctags else ctags ++ [lt]))
      as (Hpre & Hmem & Hnd).
    split; [|split].
    + etrans; [apply (mergeCachedTags_step_prefix ctags lt)|exact Hpre].
    + intros t. rewrite Hmem. rewrite elem_of_cons.
      case_bool_decide as Hlt.
      * split; [tauto|]. intros [?|[->|?]]; tauto.
      * rewrite elem_of_app, list_elem_of_singleton. tauto.
    + intros Hct. apply Hnd. case_bool_decide as Hlt; [done|].
      apply NoDup_app. split; [done|]. split.
      * intros x Hx Hx'. apply list_elem_of_singleton in Hx'. by subst.
      * apply NoDup_singleton.
Qed.

Lemma assignTags_is_Some (ts : list string) (t : string) :
  t ∈ ts -> is_Some (assignTags 0 ts ∅ !! t).
Proof.
  intros Hin. rewrite assignTags_lookup.
  destruct (lastIndexOf t ts) eqn:Hlast; [by eexists|].
  by apply lastIndexOf_None in Hlast.
Qed.

(** X13.  Every configured tag of a muxer that [newIngestMuxer] builds is
    in its tag table and has an id in its tag map.  Without a cache the
    table is the configured list; with a cache that holds entries and
    stored tags, the stored tags come first, in their stored order; and
    the table the muxer starts with is the list that was stored in the
    cache. *)
Theorem newIngestMuxer_tags (c : MuxerConfig) (nc : error + IngestCache)
    (im : IngestMuxer) :
  newIngestMuxer c nc = inr im ->
  (forall t, t ∈ Tags c -> t ∈ tags im /\ is_Some (tagMap im !! t)) /\
  (EnableCache c = false -> tags im = Tags c /\ cache im = None) /\
  (EnableCache c = true ->
     exists ch, nc = inr ch /\ cache im = Some ch /\
       cache_UpdateStoredTagList ch (tags im) = None /\
       forall ctags, 0 < cache_Count ch -> cache_GetTagList ch = inr ctags ->
                     ctags `prefix_of` tags im).
Proof.
  intros Hnew. unfold newIngestMuxer in Hnew.
  destruct (EnableCache c) eqn:Hen.
  - destruct nc as [|ch]; [done|].
    destruct (initialTags c ch) as [|ts] eqn:Hinit; [done|].
    destruct (cache_UpdateStoredTagList ch ts) eqn:Hupd; [done|].
    injection Hnew as <-. simpl.
    assert ((forall t, t ∈ Tags c -> t ∈ ts) /\
            forall ctags, 0 < cache_Count ch ->
              cache_GetTagList ch = inr ctags -> ctags `prefix_of` ts)
      as [Hcov Hpre].
    { unfold initialTags in Hinit.
      destruct (decide (0 < cache_Count ch)); [|injection Hinit as <-].
      - destruct (cache_GetTagList ch) as [|ctags]; [done|].
        destruct (decide (0 < length ctags)); injection Hinit as <-.
        + destruct (mergeCachedTags_spec ctags (Tags c)) as (Hp & Hm & _).
          split; [intros t Ht; apply Hm; by right|].
          by intros ? _ [= <-].
        + split; [done|]. intros ? _ [= <-].
          destruct ctags; [apply prefix_nil|simpl in *; lia].
      - split; [done|]. intros; lia. }
    split; [|split; [done|]].
    + intros t Ht. split; [by apply Hcov|]. by apply assignTags_is_Some, Hcov.
    + intros _. by exists ch.
  - injection Hnew as <-. simpl. split; [|split; [done|done]].
    intros t Ht. split; [done|]. by apply assignTags_is_Some.
Qed.

End ConstructionFacts.

(** ** What a new translator holds *)

Section TranslatorContent.
Context `{EntryPackage}.
Variable CheckTag : string -> option error.



Lemma fillTagTrans_known (ig : IngestConnection) (order : list (string * N))
    (tt tr : list N) (k : string) (v : N) :
  fillTagTrans ig order tt = Some (inr tr) ->
  (k, v) ∈ order -> is_Some (conn_GetTag ig k).
Proof.
  revert tt. induction order as [|[k0 v0] rest IH]; intros tt; simpl.
  - intros _ Hin. by apply elem_of_nil in Hin.
  - case_decide; [done|]. destruct (conn_GetTag ig k0) as [tg|] eqn:Hget; [|done].
    case_decide; [|done]. intros Hfill Hin.
    apply elem_of_cons in Hin as [[= -> ->]|Hin]; [by rewrite Hget|].
    by eapply IH.
Qed.


(** X15.  [newTagTrans] never hands out a translator when the connection
    does not know one of the names of the tag map: it ends in an error or
    a panic, in whatever order the map is traversed. *)
Theorem newTagTrans_unknown_name (m : gmap string N)
    (order : list (string * N)) (ig : IngestConnection)
    (name : string) (t : N) :
  order ≡ₚ map_to_list m ->
  m !! name = Some t ->
  conn_GetTag ig name = None ->
  forall tr, newTagTrans m order ig ≠ Some (inr tr).
Proof.
  intros Hperm Hname Hget tr Hnew.
  unfold newTagTrans in Hnew. case_decide; [done|].
  destruct (fillTagTrans_known ig order _ tr name t Hnew) as [remote Hr].
  - rewrite Hperm. by apply elem_of_map_to_list.
  - congruence.
Qed.

End TranslatorContent.

(** ** Registering a new tag with the live connections *)

Section RegistrationFacts.
Context `{EntryPackage}.
Variable CheckTag : string -> option error.




End RegistrationFacts.

(** ** More on Sync *)

Section MoreSyncFacts.

Lemma syncConns_calls (k : nat) (conns : list (option IngestConnection)) :
  snd (syncConns k conns) = CallSync <$> liveSlots k conns.
Proof.
  revert k. induction conns as [|[v|] rest IH]; intros k; simpl; [done| |].
  - specialize (IH (S k)). destruct (syncConns (S k) rest) as [count calls].
    simpl in *. by rewrite IH.
  - apply IH.
Qed.

Lemma syncConns_count_full (k : nat) (conns : list (option IngestConnection)) :
  fst (syncConns k conns) = length conns <->
  Forall (fun s => exists v, s = Some v /\ conn_Sync v = Some ErrNotRunning)
         conns.
Proof.
  split; [|by intros Hall; apply syncConns_all_not_running].
  revert k. induction conns as [|[v|] rest IH]; intros k; simpl.
  - intros _. apply Forall_nil_2.
  - pose proof (syncConns_count_le (S k) rest) as Hle.
    specialize (IH (S k)). destruct (syncConns (S k) rest) as [count calls].
    simpl in *. case_bool_decide as Hv; simpl; [|lia].
    intros Hc. apply Forall_cons. split; [by exists v|]. apply IH. lia.
  - pose proof (syncConns_count_le (S k) rest). lia.
Qed.

(** X17.  What [SyncContext] answers once it is past its first guard and
    has seen both channels empty.  It has then called [Sync] on exactly
    the connections of the non-empty slots, in slot order, and it returns
    [ErrAllConnsDown] if and only if every slot holds a connection that
    reported [ErrNotRunning]; in every other case it returns success, also
    when a connection's [Sync] failed with some other error. *)
Theorem SyncContext_after_drain (im : IngestMuxer) (ticks : list SyncTick) :
  ~ (connHot im = 0%Z /\ cacheRunning im = false) ->
  waitChannels (length (chan_buf (eChan im)))
               (length (chan_buf (bChan im))) ticks = Drained ->
  exists err,
    SyncContext im ticks = SyncReturns err (CallSync <$> liveSlots 0 (igst im)) /\
    (err = Some ErrAllConnsDown \/ err = None) /\
    (err = Some ErrAllConnsDown <->
       Forall (fun s => exists v, s = Some v /\
                                  conn_Sync v = Some ErrNotRunning) (igst im)) /\
    (forall k v e, igst im !! k = Some (Some v) -> conn_Sync v = Some e ->
                   e ≠ ErrNotRunning -> err = None).
Proof.
  intros Hguard Hwait. unfold SyncContext.
  assert (bool_decide (connHot im = 0%Z) && negb (cacheRunning im) = false)
    as ->.
  { destruct (cacheRunning im); [by rewrite andb_false_r|].
    rewrite bool_decide_false; [done|]. intros ?. by apply Hguard. }
  rewrite Hwait.
  pose proof (syncConns_calls 0 (igst im)) as Hcalls.
  pose proof (syncConns_count_full 0 (igst im)) as Hfull.
  destruct (syncConns 0 (igst im)) as [count calls]. simpl in *. subst calls.
  destruct (decide (count = length (igst im))) as [Heq|Hne].
  - exists (Some ErrAllConnsDown). split; [done|]. split; [by left|].
    split; [by split; [intros _; apply Hfull|]|].
    intros k v e Hk Hv He. exfalso.
    apply Hfull in Heq. rewrite Forall_lookup in Heq.
    destruct (Heq k _ Hk) as (v' & [= <-] & Hv'). congruence.
  - exists None. split; [done|]. split; [by right|]. split; [|done].
    split; [done|]. intros Hall. by apply Hfull in Hall.
Qed.

Lemma waitChannels_background (eLen bLen : nat) (ticks : list SyncTick)
    (err : error) :
  waitChannels eLen bLen (backgroundTick <$> ticks) = Exit err ->
  err = ErrAllConnsDown \/ err = ErrTimeout.
Proof.
  revert eLen bLen. induction ticks as [|tk rest IH]; intros eLen bLen; simpl.
  - by destruct (_ || _).
  - destruct (_ || _); [|done].
    case_bool_decide; [intros [= <-]; by left|].
    destruct (tick_expired tk); [intros [= <-]; by right|]. apply IH.
Qed.

(** X18.  [Sync], which runs with the background context, never returns
    a context error: an error it returns is [ErrAllConnsDown] or
    [ErrTimeout].  [SyncContext] looks at its context only while it waits
    for the channels: when both channels are empty at the call its answer
    does not depend on the context, the deadline or later observations,
    and when it does give up while waiting it has called no connection. *)
Theorem Sync_errors (im : IngestMuxer) (ticks : list SyncTick) :
  (forall err calls, Sync im ticks = SyncReturns (Some err) calls ->
     err = ErrAllConnsDown \/ err = ErrTimeout) /\
  (chan_buf (eChan im) = [] -> chan_buf (bChan im) = [] ->
     forall ticks', SyncContext im ticks = SyncContext im ticks') /\
  (forall err, waitChannels (length (chan_buf (eChan im)))
                            (length (chan_buf (bChan im))) ticks = Exit err ->
     SyncContext im ticks = SyncReturns (Some ErrAllConnsDown) [] \/
     SyncContext im ticks = SyncReturns (Some err) []).
Proof.
  split; [|split].
  - intros err calls. unfold Sync, SyncContext.
    destruct (_ && _); [intros [= <- _]; by left|].
    destruct (waitChannels _ _ _) as [|err'|] eqn:Hwait; [| |done].
    + destruct (syncConns 0 (igst im)) as [count cs].
      case_decide; [intros [= <- _]; by left|done].
    + intros [= <- _]. by eapply waitChannels_background.
  - intros He Hb ticks'. unfold SyncContext. rewrite He, Hb. simpl.
    by destruct ticks, ticks'.
  - intros err Hwait. unfold SyncContext. rewrite Hwait.
    destruct (_ && _); [by left|by right].
Qed.

End MoreSyncFacts.

(** ** Writes that can give up *)

Section WriteSelectFacts.




End WriteSelectFacts.

(** ** The muxer's own log entries *)

Section GravwellLogFacts.
Context `{EntryPackage}.

(** X20.  The entries the muxer writes about itself carry the reserved
    Gravwell tag, so every translator, an empty one included, passes them
    on untranslated and reverses them to themselves.  [Error], [Warn] and
    [Info] return success without writing when the muxer's level is below
    3, 2 and 1; above that, [Error] and [Warn] both write an entry that
    reads ERROR and [Info] one that reads WARN, through [WriteEntry]. *)
Theorem gravwell_log_entries (logLevel : Z) (im : IngestMuxer) (now : Z)
    (stamp line : string) (tr : list N) :
  (forall level,
     Translate tr (Tag (GravwellLog.logEntry level now stamp line))
       = Some (Tag (GravwellLog.logEntry level now stamp line), true) /\
     Reverse tr (Tag (GravwellLog.logEntry level now stamp line))
       = Tag (GravwellLog.logEntry level now stamp line)) /\
  ((logLevel < 3)%Z ->
     GravwellLog.Error logLevel im now stamp line = Done (im, None)) /\
  ((logLevel < 2)%Z ->
     GravwellLog.Warn logLevel im now stamp line = Done (im, None)) /\
  ((logLevel < 1)%Z ->
     GravwellLog.Info logLevel im now stamp line = Done (im, None)) /\
  ((3 <= logLevel)%Z ->
     GravwellLog.Error logLevel im now stamp line =
       WriteEntry im (Some (GravwellLog.logEntry 3 now stamp line))) /\
  ((2 <= logLevel)%Z ->
     GravwellLog.Warn logLevel im now stamp line =
       WriteEntry im (Some (GravwellLog.logEntry 3 now stamp line))) /\
  ((1 <= logLevel)%Z ->
     GravwellLog.Info logLevel im now stamp line =
       WriteEntry im (Some (GravwellLog.logEntry 2 now stamp line))) /\
  Data (GravwellLog.logEntry 3 now stamp line)
    = stamp +:+ " " +:+ "ERROR" +:+ " " +:+ line /\
  Data (GravwellLog.logEntry 2 now stamp line)
    = stamp +:+ " " +:+ "WARN" +:+ " " +:+ line.
Proof.
  split.
  { intros level. simpl. unfold Translate, Reverse.
    by rewrite !decide_True. }
  unfold GravwellLog.Error, GravwellLog.Warn, GravwellLog.Info,
    GravwellLog.gravwellWrite, GravwellLog.gravwellError,
    GravwellLog.gravwellWarn, GravwellLog.gravwellInfo.
  repeat split; try done; intros Hl;
    (rewrite decide_True by lia) || (rewrite decide_False by lia); done.
Qed.

End GravwellLogFacts.

(** ** The log package *)

Module LogFacts.
Import Log.




Lemma not_ready_op (env : Writers) (l : Logger) (op : Op) :
  ready l = Some ErrNotOpen ->
  exists e, runOp env l op = Some (l, Some e, []).
Proof.
  intros Hr. destruct op as [|[w|]|[w|]|v|v stamp f msg]; simpl.
  - unfold Close. rewrite Hr. by eexists.
  - unfold AddWriter. rewrite Hr. by eexists.
  - by eexists.
  - unfold DeleteWriter. rewrite Hr. by eexists.
  - by eexists.
  - unfold SetLevel. rewrite Hr. by eexists.
  - unfold output. rewrite Hr. by eexists.
Qed.


Lemma deleteLoop_filter (wtr : option nat) (n : nat) (ws : list (option nat)) :
  n <= length ws ->
  deleteLoop wtr n ws =
    Some (filter (fun x => x ≠ wtr) (take n ws) ++ drop n ws).
Proof.
  revert ws. induction n as [|i IH]; intros ws Hn; simpl.
  - by rewrite ?take_0, ?drop_0.
  - destruct (lookup_lt_is_Some_2 ws i) as [x Hx]; [lia|]. rewrite Hx.
    rewrite (take_S_r ws i x Hx), filter_app.
    destruct (decide (x = wtr)) as [->|Hne].
    + rewrite IH by (rewrite length_app, length_take, length_drop; lia).
      rewrite take_app_length' by (rewrite length_take; lia).
      rewrite drop_app_length' by (rewrite length_take; lia).
      rewrite filter_cons_False by (by intros ?). simpl.
      by rewrite app_nil_r.
    + rewrite IH by lia.
      rewrite filter_cons_True by done. simpl.
      rewrite <- app_assoc. simpl.
      by rewrite (drop_S ws x i Hx).
Qed.

(** X23.  [DeleteWriter] on an open logger removes every occurrence of
    the writer, keeps the other writers in their order, closes nothing and
    never fails on an index.  Removing the last writer leaves a logger that
    is not open and cannot be opened again: every later call, [AddWriter]
    included, returns an error. *)
Theorem DeleteWriter_spec (l : Logger) (w : nat) :
  ready l = None ->
  let l' := {| wtrs := filter (fun x => x ≠ Some w) (wtrs l);
               lvl := lvl l; hot := hot l |} in
  DeleteWriter l (Some w) = Some (l', None) /\
  (Some w ∉ wtrs l') /\
  (forall x, x ≠ Some w -> x ∈ wtrs l' <-> x ∈ wtrs l) /\
  (Forall (fun x => x = Some w) (wtrs l) ->
     wtrs l' = [] /\
     forall env op, exists e, runOp env l' op = Some (l', Some e, [])).
Proof.
  intros Hready. simpl. unfold DeleteWriter. rewrite Hready.
  rewrite deleteLoop_filter by done.
  rewrite firstn_all, drop_all, app_nil_r.
  split; [done|]. simpl. split; [|split].
  - rewrite list_elem_of_filter. by intros [? _].
  - intros x Hx. rewrite list_elem_of_filter. tauto.
  - intros Hall.
    assert (filter (fun x => x ≠ Some w) (wtrs l) = []) as Hnil.
    { induction Hall as [|x rest -> _ IH]; [done|].
      by rewrite filter_cons_False by (by intros ?). }
    rewrite Hnil. split; [done|]. intros env op.
    apply not_ready_op. unfold ready. simpl.
    by rewrite orb_true_r.
Qed.

Lemma Valid_cases (v : Z) :
  Valid v = true <-> (0 <= v <= 5)%Z.
Proof.
  unfold Valid, OFF, DEBUG, INFO, WARN, ERROR, CRITICAL.
  rewrite !orb_true_iff, !bool_decide_eq_true. lia.
Qed.

(** X24.  Levels and their names.  [SetLevel] on an open logger accepts
    exactly the six levels [OFF] to [CRITICAL]; an accepted level is what
    [GetLevel] returns next, a refused one leaves the logger unchanged
    with [ErrInvalidLevel].  Every accepted level has a name that
    [LevelFromString] reads back to the same level (given that upper-casing
    leaves names made of capital letters alone), so [SetLevelString] with
    the name of a level sets that level; the name UNKNOWN of any other
    value is refused. *)
Theorem level_names (ToUpper : string -> string) (l : Logger) (v : Z) :
  (forall s, s ∈ ["OFF"; "DEBUG"; "INFO"; "WARN"; "ERROR"; "CRITICAL";
                  "UNKNOWN"] -> ToUpper s = s) ->
  ready l = None ->
  (snd (SetLevel l v) = None <-> (0 <= v <= 5)%Z) /\
  ((0 <= v <= 5)%Z ->
     GetLevel (fst (SetLevel l v)) = v /\
     LevelFromString ToUpper (String v) = (v, None) /\
     SetLevelString ToUpper l (String v) = SetLevel l v) /\
  (~ (0 <= v <= 5)%Z ->
     SetLevel l v = (l, Some ErrInvalidLevel) /\
     String v = "UNKNOWN" /\
     SetLevelString ToUpper l (String v) = (l, Some ErrInvalidLevel)).
Proof.
  intros Hup Hready.
  pose proof (Valid_cases v) as Hval.
  assert (forall x, ready {| wtrs := wtrs l; lvl := x; hot := hot l |} = None)
    as Hready'.
  { intros x. unfold ready in *. done. }
  split; [|split].
  - unfold SetLevel. rewrite Hready. destruct (Valid v) eqn:Hv; simpl.
    + split; [intros _; by apply Valid_cases|done].
    + split; [done|]. intros Hr. apply Valid_cases in Hr. congruence.
  - intros Hr. assert (Valid v = true) as Hv by (by apply Hval).
    assert (v = 0 \/ v = 1 \/ v = 2 \/ v = 3 \/ v = 4 \/ v = 5)%Z
      as Hcases by lia.
    assert (LevelFromString ToUpper (String v) = (v, None)) as Hname.
    { unfold LevelFromString.
      destruct Hcases as [-> | [-> | [-> | [-> | [-> | ->]]]]];
        (rewrite Hup by (vm_compute String; repeat first [by left | right]));
        done. }
    unfold SetLevelString. rewrite Hname.
    split; [|done]. unfold SetLevel, GetLevel. rewrite Hready, Hv. simpl.
    by rewrite Hready'.
  - intros Hr. assert (Valid v = false) as Hv.
    { destruct (Valid v) eqn:Hv; [|done]. by apply Valid_cases in Hv. }
    assert (String v = "UNKNOWN") as Hs.
    { unfold String, OFF, DEBUG, INFO, WARN, ERROR, CRITICAL.
      repeat (rewrite decide_False by lia). done. }
    split; [by unfold SetLevel; rewrite Hready, Hv|]. split; [done|].
    unfold SetLevelString, LevelFromString. rewrite Hs.
    rewrite Hup by (repeat first [by left | right]). done.
Qed.

End LogFacts.

(** ** Draining the emergency queue into a connection *)

Section ClearFacts.
Context `{EntryPackage}.

Lemma setTag_translated (tt : list N) (h : gmap nat Entry) (p : nat)
    (e : Entry) (r : N) (b : bool) :
  h !! p = Some e -> Translate tt (Tag e) = Some (r, b) ->
  setTag h p r = alter (translated tt) p h.
Proof.
  intros Hp Htr. unfold setTag. apply map_eq. intros q.
  rewrite !lookup_alter. case_decide as Hq; [|done]. subst q.
  rewrite Hp. simpl. unfold translated. by rewrite Htr.
Qed.

Lemma translateStore_app (tt : list N) (ps qs : list nat) (h : gmap nat Entry) :
  translateStore tt (ps ++ qs) h = translateStore tt qs (translateStore tt ps h).
Proof. unfold translateStore. by rewrite foldl_app. Qed.

Lemma translateStore_notin (tt : list N) (ps : list nat) (h : gmap nat Entry)
    (q : nat) :
  q ∉ ps -> translateStore tt ps h !! q = h !! q.
Proof.
  revert h. induction ps as [|p ps IH]; intros h Hq; [done|].
  apply not_elem_of_cons in Hq as [Hne Hq]. unfold translateStore. simpl.
  fold (translateStore tt ps (alter (translated tt) p h)).
  rewrite IH by done. by rewrite lookup_alter_ne.
Qed.

Lemma translateStore_in (tt : list N) (ps : list nat) (h : gmap nat Entry)
    (q : nat) :
  NoDup ps -> q ∈ ps -> translateStore tt ps h !! q = translated tt <$> h !! q.
Proof.
  revert h. induction ps as [|p ps IH]; intros h Hnd Hq.
  - by apply elem_of_nil in Hq.
  - apply NoDup_cons in Hnd as [Hp Hnd]. unfold translateStore. simpl.
    fold (translateStore tt ps (alter (translated tt) p h)).
    apply elem_of_cons in Hq as [->|Hq].
    + rewrite translateStore_notin by done. by rewrite lookup_alter_eq.
    + rewrite IH by done. rewrite lookup_alter_ne; [done|].
      intros ->. done.
Qed.

Lemma elem_of_concat {A : Type} (x : A) (ls : list (list A)) :
  x ∈ concat ls <-> exists l, x ∈ l /\ l ∈ ls.
Proof.
  induction ls as [|l0 ls IH]; simpl.
  - split; [intros Hx; by apply elem_of_nil in Hx|].
    intros (l & _ & Hl). by apply elem_of_nil in Hl.
  - rewrite elem_of_app, IH. split.
    + intros [Hx|(l & Hx & Hl)]; [exists l0; split; [done|left]|].
      exists l. split; [done|by right].
    + intros (l & Hx & Hl). apply elem_of_cons in Hl as [->|Hl]; [by left|].
      right. by exists l.
Qed.

Lemma snapshot_ext (h h' : gmap nat Entry) (blk : list (option nat)) :
  (forall p, Some p ∈ blk -> h !! p = h' !! p) ->
  snapshot h blk = snapshot h' blk.
Proof.
  intros Hag. unfold snapshot. apply list_fmap_ext.
  intros i [p|] Hi; simpl; [|done]. apply Hag.
  by eapply list_elem_of_lookup_2.
Qed.

Lemma elem_of_omap_id (blk : list (option nat)) (p : nat) :
  p ∈ omap id blk <-> Some p ∈ blk.
Proof.
  rewrite list_elem_of_omap. split.
  - intros (x & Hx & Hid). simpl in Hid. by subst.
  - intros Hp. by exists (Some p).
Qed.

(** The translation loop on a batch whose entries are distinct and all
    translatable. *)
Lemma translateBlock_success (tt : list N) (h : gmap nat Entry)
    (before todo : list (option nat)) (ok : bool) :
  NoDup (omap id todo) ->
  (forall p, Some p ∈ todo -> translatable tt h p) ->
  translateBlock tt h before todo ok =
    Some (translateStore tt (omap id todo) h,
          (if omap id todo is [] then ok else true), false).
Proof.
  revert h before ok. induction todo as [|[p|] rest IH];
    intros h before ok Hnd Htr; simpl.
  - done.
  - simpl in Hnd. apply NoDup_cons in Hnd as [Hp Hnd].
    destruct (Htr p) as (e & r & He & Hr); [left|].
    rewrite He, Hr. rewrite IH; [| done |].
    + unfold translateStore at 2. simpl.
      rewrite (setTag_translated tt h p e r true He Hr).
      f_equal. f_equal. f_equal. by destruct (omap id rest).
    + intros q Hq. destruct (Htr q) as (e' & r' & He' & Hr'); [by right|].
      exists e', r'. split; [|done].
      unfold setTag. rewrite lookup_alter_ne; [done|].
      intros ->. apply Hp. by apply elem_of_omap_id.
  - apply IH; [done|]. intros q Hq. apply Htr. by right.
Qed.

Lemma itemCalls_ext (h h' : gmap nat Entry) (elm : emPtrs) :
  (forall p, p ∈ itemPtrs elm -> h !! p = h' !! p) ->
  itemCalls h elm = itemCalls h' elm.
Proof.
  intros Hag. unfold itemCalls. f_equal.
  - destruct (p_e elm) as [p|] eqn:Hp; simpl; [|done].
    rewrite (Hag p); [done|]. unfold itemPtrs. rewrite Hp. left.
  - case_decide; [|done]. f_equal. f_equal. apply snapshot_ext.
    intros p Hp. apply Hag. unfold itemPtrs. apply elem_of_app. right.
    by apply elem_of_omap_id.
Qed.

(** X25.  Draining the emergency queue.  On an empty queue [clear] does
    nothing and returns [true].  When every write on the connection
    succeeds, no entry is queued twice and every queued tag can be
    translated, [clear] empties the queue and returns [true]; it has
    written the items in the order they were queued (the single entry of
    an item before its batch), every entry with its tag translated, and
    the queued entries are left with their translated tags. *)
Theorem clear_drains (tt : list N) (wres : nat -> option error)
    (h : gmap nat Entry) (q : list emPtrs) :
  clear tt wres h [] =
    Some {| cr_store := h; cr_queue := []; cr_ok := true; cr_calls := [] |} /\
  ((forall n, wres n = None) ->
   NoDup (concat (itemPtrs <$> q)) ->
   (forall p, p ∈ concat (itemPtrs <$> q) -> translatable tt h p) ->
   clear tt wres h q =
     Some {| cr_store := translateStore tt (concat (itemPtrs <$> q)) h;
             cr_queue := []; cr_ok := true;
             cr_calls := concat (itemCalls (translated tt <$> h) <$> q) |}).
Proof.
  split; [done|]. intros Hw. unfold clear. generalize 0 false.
  revert h. induction q as [|elm rest IH]; intros h n ok Hnd Htr; [done|].
  simpl in Hnd, Htr. apply NoDup_app in Hnd as (Hnd1 & Hdisj & Hnd2).
  assert (forall h1 n1 ok1 calls1,
    (forall p, p ∈ concat (itemPtrs <$> rest) -> h1 !! p = h !! p) ->
    (forall p, Some p ∈ p_ents elm -> translatable tt h1 p) ->
    (forall p, Some p ∈ p_ents elm ->
       translated tt <$> h1 !! p = translated tt <$> h !! p) ->
    NoDup (omap id (p_ents elm)) ->
    (forall p, Some p ∈ p_ents elm -> p ∉ concat (itemPtrs <$> rest)) ->
    match clearBlock tt wres n1 ok1 h1 rest None (p_ents elm) with
    | None => None
    | Some (inl r) => Some (withCalls calls1 r)
    | Some (inr (h2, n2, ok2, calls2)) =>
        match clearLoop tt wres n2 ok2 h2 rest with
        | Some r => Some (withCalls (calls1 ++ calls2) r)
        | None => None
        end
    end =
    Some {| cr_store := translateStore tt (omap id (p_ents elm) ++
                                           concat (itemPtrs <$> rest)) h1;
            cr_queue := []; cr_ok := true;
            cr_calls := calls1 ++
              (if decide (0 < length (p_ents elm))
               then [CallWriteBatchEntry (snapshot (translated tt <$> h) (p_ents elm))]
               else []) ++
              concat (itemCalls (translated tt <$> h) <$> rest) |}) as Hblock.
  { intros h1 n1 ok1 calls1 Hag Htr1 Hsame Hndb Hdisjb. unfold clearBlock.
    assert (forall h2, (forall p, p ∈ concat (itemPtrs <$> rest) ->
                                  h2 !! p = h !! p) ->
              forall n2 ok2, clearLoop tt wres n2 ok2 h2 rest =
                Some {| cr_store := translateStore tt (concat (itemPtrs <$> rest)) h2;
                        cr_queue := []; cr_ok := true;
                        cr_calls := concat (itemCalls (translated tt <$> h) <$> rest) |})
      as Hrest.
    { intros h2 Hag2 n2 ok2. rewrite IH; [|done|].
      - do 2 f_equal. f_equal. apply list_fmap_ext. intros i x Hx.
        apply itemCalls_ext. intros p Hp. rewrite !lookup_fmap, Hag2; [done|].
        apply elem_of_concat. exists (itemPtrs x). split; [done|].
        apply list_elem_of_fmap. exists x. split; [done|].
        by eapply list_elem_of_lookup_2.
      - intros p Hp. destruct (Htr p) as (e & r & He & Hr).
        { apply elem_of_app. by right. }
        exists e, r. by rewrite Hag2. }
    case_decide as Hlen.
    - rewrite translateBlock_success by done. rewrite Hw.
      rewrite Hrest.
      + unfold withCalls. simpl. rewrite translateStore_app.
        rewrite <- app_assoc. simpl.
        rewrite (snapshot_ext (translateStore tt (omap id (p_ents elm)) h1)
                   (translated tt <$> h) (p_ents elm)); [done|].
        intros p Hp.
        rewrite translateStore_in, lookup_fmap;
          [by apply Hsame|done|by apply elem_of_omap_id].
      + intros p Hp. rewrite translateStore_notin; [by apply Hag|].
        intros Hin. apply elem_of_omap_id in Hin. by apply (Hdisjb p).
    - assert (p_ents elm = []) as Hnil.
      { destruct (p_ents elm); [done|simpl in Hlen; lia]. }
      rewrite Hrest by done. unfold withCalls. simpl.
      rewrite Hnil. simpl. by rewrite !app_nil_r. }
  simpl. unfold itemPtrs in Hnd1, Hdisj, Htr |- *. unfold itemCalls at 1.
  destruct (p_e elm) as [p|] eqn:Hpe; simpl in *.
  - apply NoDup_cons in Hnd1 as [Hpb Hndb].
    destruct (Htr p) as (e & r & He & Hr); [left|].
    rewrite He, Hr. unfold setTag at 1. rewrite lookup_alter_eq, He. simpl.
    rewrite Hw.
    rewrite (setTag_translated tt h p e r true He Hr).
    rewrite Hblock.
    + rewrite lookup_fmap, He. simpl.
      unfold translateStore at 2. simpl.
      do 2 f_equal. unfold translated. by rewrite Hr.
    + intros q Hq. rewrite lookup_alter_ne; [done|]. intros <-.
      apply (Hdisj p); [left|done].
    + intros q Hq. destruct (Htr q) as (e' & r' & He' & Hr').
      { right. apply elem_of_app. left. by apply elem_of_omap_id. }
      exists e', r'. split; [|done]. rewrite lookup_alter_ne; [done|].
      intros ->. apply Hpb. by apply elem_of_omap_id.
    + intros q Hq. rewrite lookup_alter_ne; [done|].
      intros ->. apply Hpb. by apply elem_of_omap_id.
    + done.
    + intros q Hq Hin. apply (Hdisj q); [|done].
      right. by apply elem_of_omap_id.
  - rewrite Hblock; [done|done| | done |done|].
    + intros q Hq. apply Htr. apply elem_of_app. left.
      by apply elem_of_omap_id.
    + intros q Hq Hin. apply (Hdisj q); [|done]. by apply elem_of_omap_id.
Qed.

End ClearFacts.

Section ClearFailureFacts.
Context `{EntryPackage}.

Lemma pushPtr_tail (rest : list emPtrs) (e : option nat)
    (blk : list (option nat)) :
  e ≠ None \/ blk ≠ [] ->
  length rest <= maxEmergencyListSize ->
  fst (pushPtr rest e blk) = rest ++ [{| p_e := e; p_ents := blk |}].
Proof.
  intros Hp Hlen. unfold pushPtr.
  assert (bool_decide (e = None) && bool_decide (length blk = 0) = false) as ->.
  { destruct e; [done|]. destruct blk; [by destruct Hp|done]. }
  by rewrite decide_False by lia.
Qed.

(** X26.  How [clear] fails on the single entry at the head of the queue
    (a queue within its bound).  If the tag cannot be translated, nothing
    is written, the entries are untouched, the item goes to the tail of
    the queue and [clear] returns [false].  If the tag translates and the
    connection refuses the entry, the item goes to the tail as well, the
    entry's tag is set to what [Reverse] makes of the translated tag, no
    other entry is touched, and [clear] returns [true]. *)
Theorem clear_head_entry_failure (tt : list N) (wres : nat -> option error)
    (h : gmap nat Entry) (p : nat) (e : Entry) (blk : list (option nat))
    (rest : list emPtrs) (r : N) :
  h !! p = Some e ->
  length rest <= maxEmergencyListSize ->
  let item := {| p_e := Some p; p_ents := blk |} in
  let sent := {| TS := TS e; Tag := r; SRC := SRC e; Data := Data e |} in
  (Translate tt (Tag e) = Some (r, false) ->
     clear tt wres h (item :: rest) =
       Some {| cr_store := h; cr_queue := rest ++ [item]; cr_ok := false;
               cr_calls := [] |}) /\
  (Translate tt (Tag e) = Some (r, true) -> wres 0 ≠ None ->
     exists st,
       clear tt wres h (item :: rest) =
         Some {| cr_store := st; cr_queue := rest ++ [item]; cr_ok := true;
                 cr_calls := [CallWriteEntry sent] |} /\
       st !! p = Some {| TS := TS e; Tag := Reverse tt r; SRC := SRC e;
                         Data := Data e |} /\
       forall q, q ≠ p -> st !! q = h !! q).
Proof.
  intros Hp Hlen item sent. unfold clear. simpl. rewrite Hp. split.
  - intros ->. by rewrite pushPtr_tail by (done || by left).
  - intros -> Hw. unfold setTag at 1. rewrite lookup_alter_eq, Hp. simpl.
    destruct (wres 0) as [err|]; [|done].
    eexists. rewrite pushPtr_tail by (done || by left).
    split; [done|]. split.
    + unfold setTag. by rewrite !lookup_alter_eq, Hp.
    + intros q Hq. unfold setTag. by rewrite !lookup_alter_ne.
Qed.

Lemma reversePrefix_nil (tt : list N) (h : gmap nat Entry)
    (prefix : list (option nat)) :
  None ∈ prefix -> reversePrefix tt h prefix = None.
Proof.
  revert h. induction prefix as [|[p|] rest IH]; intros h Hin; simpl.
  - by apply elem_of_nil in Hin.
  - apply elem_of_cons in Hin as [?|Hin]; [done|].
    destruct (h !! p); [by apply IH|done].
  - done.
Qed.

Lemma reversePrefix_total (tt : list N) (h : gmap nat Entry)
    (prefix : list (option nat)) :
  None ∉ prefix ->
  (forall p, Some p ∈ prefix -> is_Some (h !! p)) ->
  is_Some (reversePrefix tt h prefix).
Proof.
  revert h. induction prefix as [|[p|] rest IH]; intros h Hnil Hall; simpl.
  - by eexists.
  - destruct (Hall p) as [e He]; [left|]. rewrite He.
    apply IH.
    + intros Hin. apply Hnil. by right.
    + intros q Hq. unfold setTag.
      destruct (decide (p = q)) as [->|Hne].
      * rewrite lookup_alter_eq, He. by eexists.
      * rewrite lookup_alter_ne by done. apply Hall. by right.
  - exfalso. apply Hnil. left.
Qed.

(** The translation loop runs through a prefix of distinct, translatable
    entries and nil pointers. *)
Lemma translateBlock_prefix (tt : list N) (h : gmap nat Entry)
    (before0 before todo : list (option nat)) (ok : bool) :
  NoDup (omap id before) ->
  (forall p, Some p ∈ before -> translatable tt h p) ->
  translateBlock tt h before0 (before ++ todo) ok =
    translateBlock tt (translateStore tt (omap id before) h)
                   (before0 ++ before) todo
                   (if omap id before is [] then ok else true).
Proof.
  revert h before0 ok. induction before as [|[p|] rest IH];
    intros h before0 ok Hnd Htr; simpl.
  - by rewrite app_nil_r.
  - simpl in Hnd. apply NoDup_cons in Hnd as [Hp Hnd].
    destruct (Htr p) as (e & r & He & Hr); [left|].
    rewrite He, Hr. rewrite IH; [| done |].
    + unfold translateStore at 2. simpl.
      rewrite (setTag_translated tt h p e r true He Hr).
      rewrite <- app_assoc. simpl. unfold translateStore, omap.
      by destruct (list_omap _ _ id rest).
    + intros q Hq. destruct (Htr q) as (e' & r' & He' & Hr'); [by right|].
      exists e', r'. split; [|done].
      unfold setTag. rewrite lookup_alter_ne; [done|].
      intros ->. apply Hp. by apply elem_of_omap_id.
  - rewrite IH; [|done|].
    + by rewrite <- app_assoc.
    + intros q Hq. apply Htr. by right.
Qed.

(** X27.  A translation failure inside a queued batch.  Take the item at
    the head of the queue to be a batch only, whose entries up to some
    entry [p] are distinct and translatable or nil, while the tag of [p]
    is unknown to the translator.  If a nil pointer comes before [p],
    [clear] panics: undoing the translations dereferences it.  If none
    does, [clear] writes nothing, moves the item to the tail of the queue
    and returns [false]. *)
Theorem clear_batch_failure (tt : list N) (wres : nat -> option error)
    (h : gmap nat Entry) (p : nat) (e : Entry) (r : N)
    (before more : list (option nat)) (rest : list emPtrs) :
  NoDup (omap id before) ->
  p ∉ omap id before ->
  (forall q, Some q ∈ before -> translatable tt h q) ->
  h !! p = Some e ->
  Translate tt (Tag e) = Some (r, false) ->
  length rest <= maxEmergencyListSize ->
  let item := {| p_e := None; p_ents := before ++ Some p :: more |} in
  (None ∈ before -> clear tt wres h (item :: rest) = None) /\
  (None ∉ before ->
     exists st,
       clear tt wres h (item :: rest) =
         Some {| cr_store := st; cr_queue := rest ++ [item]; cr_ok := false;
                 cr_calls := [] |}).
Proof.
  intros Hnd Hp Htr He Hr Hlen item.
  assert (translateStore tt (omap id before) h !! p = Some e) as He'.
  { by rewrite translateStore_notin. }
  unfold clear. simpl. unfold clearBlock.
  rewrite decide_True by (rewrite length_app; simpl; lia).
  rewrite (translateBlock_prefix tt h [] before (Some p :: more)) by done.
  simpl. rewrite He', Hr. split.
  - intros Hnil. by rewrite reversePrefix_nil.
  - intros Hnil.
    destruct (reversePrefix_total tt (translateStore tt (omap id before) h)
                before Hnil) as [st Hst].
    { intros q Hq. destruct (Htr q Hq) as (e0 & r0 & He0 & _).
      rewrite translateStore_in; [|done|by apply elem_of_omap_id].
      rewrite He0. by eexists. }
    rewrite Hst. exists st. unfold withCalls. simpl.
    rewrite pushPtr_tail; [done| |done].
    right. by destruct before.
Qed.

End ClearFailureFacts.

(** ** Recycling entries *)

Section RecycleFacts.
Context `{EntryPackage}.

(** X28.  Recycling a single entry.  Whenever the call returns, the entry
    has its tag replaced by what [Reverse] gives for it, also when
    [reverseTags] is false; so a local tag that is not the Gravwell tag
    and is not among the translator's remote ids becomes 0.  No other
    entry and nothing of the batch channel is touched, and the call has
    done exactly one of three things: sent the entry on the entry channel,
    which had room; parked it at the tail of the emergency queue, the
    timer having fired on a queue of at most [maxEmergencyListSize]
    items; or dropped it, the timer having fired on a queue that holds
    more: the entry is then added neither to the channel nor to the
    queue. *)
Theorem recycle_single_entry (tt : list N) (fired1 pick1 fired2 pick2 : bool)
    (st st' : RecycleState) (p : nat) (en : Entry) (reverseTags : bool) :
  rs_store st !! p = Some en ->
  recycleEntries tt fired1 pick1 fired2 pick2 st (Some p) [] reverseTags
    = Some (Returned st') ->
  rs_store st' !! p = Some {| TS := TS en; Tag := Reverse tt (Tag en);
                              SRC := SRC en; Data := Data en |} /\
  (Tag en ≠ GravwellTagId -> Tag en ∉ tt ->
     Tag <$> rs_store st' !! p = Some 0%N) /\
  (forall q, q ≠ p -> rs_store st' !! q = rs_store st !! q) /\
  rs_bChan st' = rs_bChan st /\
  ((length (chan_buf (rs_eChan st)) < chan_cap (rs_eChan st) /\
    chan_buf (rs_eChan st') = chan_buf (rs_eChan st) ++ [p] /\
    chan_cap (rs_eChan st') = chan_cap (rs_eChan st) /\
    rs_queue st' = rs_queue st)
   \/
   (fired1 = true /\ length (rs_queue st) <= maxEmergencyListSize /\
    rs_eChan st' = rs_eChan st /\
    rs_queue st' = rs_queue st ++ [{| p_e := Some p; p_ents := [] |}])
   \/
   (fired1 = true /\ maxEmergencyListSize < length (rs_queue st) /\
    rs_eChan st' = rs_eChan st /\
    rs_queue st' = rs_queue st)).
Proof.
  intros Hp. unfold recycleEntries. simpl. rewrite Hp.
  assert (forall h, h = setTag (rs_store st) p (Reverse tt (Tag en)) ->
            h !! p = Some {| TS := TS en; Tag := Reverse tt (Tag en);
                             SRC := SRC en; Data := Data en |} /\
            (Tag en ≠ GravwellTagId -> Tag en ∉ tt ->
               Tag <$> h !! p = Some 0%N) /\
            (forall q, q ≠ p -> h !! q = rs_store st !! q)) as Hstore.
  { intros h ->. unfold setTag. rewrite lookup_alter_eq, Hp. simpl.
    split; [done|]. split.
    - intros Hg Hnot. f_equal. unfold Reverse. rewrite decide_False by done.
      apply (reverseScan_None tt 0) in Hnot. by rewrite Hnot.
    - intros q Hq. by rewrite lookup_alter_ne. }
  unfold recycleBatch, selectSend, chan_send. simpl.
  unfold pushPtr. simpl.
  destruct (decide (maxEmergencyListSize < length (rs_queue st)))
    as [Hover|Hfits];
    destruct (decide (length (chan_buf (rs_eChan st))
                      < chan_cap (rs_eChan st))) as [Hroom|Hroom];
    destruct fired1; try destruct pick1;
    intros [= <-]; simpl;
    (destruct (Hstore _ eq_refl) as (H1 & H2 & H3);
     split; [exact H1|]; split; [exact H2|]; split; [exact H3|];
     split; [done|]);
    first [ by left | (right; left; repeat split; (done || lia))
          | (right; right; repeat split; (done || lia)) ].
Qed.

(** X29.  Recycling an entry together with a non-empty batch when the
    entry channel is full and the timer fires, whatever [reverseTags] is.
    On a queue of fewer than [maxEmergencyListSize] items the entry and
    the batch are parked together as one queue item and the batch is then
    handed over a second time, either sent on the batch channel or parked
    again as an item of its own: on return the batch is held twice.  On a
    queue of exactly [maxEmergencyListSize] items they are parked
    together, and the batch is held a second time only if the batch
    channel takes it.  On a longer queue the call returns with the entry
    and the batch added neither to the queue nor to a channel. *)
Theorem recycle_entry_with_batch (tt : list N) (pick1 fired2 pick2 : bool)
    (st st' : RecycleState) (p : nat) (ents : list (option nat))
    (reverseTags : bool) :
  ents ≠ [] ->
  chan_send (rs_eChan st) p = None ->
  recycleEntries tt true pick1 fired2 pick2 st (Some p) ents reverseTags
    = Some (Returned st') ->
  rs_eChan st' = rs_eChan st /\
  (length (rs_queue st) < maxEmergencyListSize ->
     (rs_queue st' = rs_queue st ++ [{| p_e := Some p; p_ents := ents |}] /\
      chan_buf (rs_bChan st') = chan_buf (rs_bChan st) ++ [ents] /\
      chan_cap (rs_bChan st') = chan_cap (rs_bChan st))
     \/
     (rs_queue st' = rs_queue st ++ [{| p_e := Some p; p_ents := ents |};
                                     {| p_e := None; p_ents := ents |}] /\
      rs_bChan st' = rs_bChan st)) /\
  (length (rs_queue st) = maxEmergencyListSize ->
     rs_queue st' = rs_queue st ++ [{| p_e := Some p; p_ents := ents |}] /\
     ((chan_buf (rs_bChan st') = chan_buf (rs_bChan st) ++ [ents] /\
       chan_cap (rs_bChan st') = chan_cap (rs_bChan st))
      \/ (fired2 = true /\ rs_bChan st' = rs_bChan st))) /\
  (maxEmergencyListSize < length (rs_queue st) ->
     rs_queue st' = rs_queue st /\ rs_bChan st' = rs_bChan st).
Proof.
  intros Hne Hfull. unfold recycleEntries.
  destruct (if bool_decide (0 < length ents) && reverseTags
            then reverseAll tt (rs_store st) ents
            else Some (rs_store st)) as [h1|]; [|done].
  destruct (h1 !! p) as [en|]; [|done].
  unfold selectSend at 1. rewrite Hfull.
  assert (0 < length ents) as Hpos by (destruct ents; [done|simpl; lia]).
  unfold pushPtr at 1. simpl.
  destruct (decide (maxEmergencyListSize < length (rs_queue st)))
    as [Hover|Hfits].
  { intros [= <-]. simpl. split; [done|]. repeat split; (done || lia). }
  unfold recycleBatch. rewrite decide_True by done. simpl.
  unfold selectSend, chan_send, pushPtr. simpl.
  rewrite bool_decide_false by lia. simpl. rewrite length_app. simpl.
  destruct (decide (length (chan_buf (rs_bChan st))
                    < chan_cap (rs_bChan st))) as [Hroom|Hroom];
    destruct fired2; try destruct pick2;
    try (destruct (decide (maxEmergencyListSize < length (rs_queue st) + 1))
           as [Hlast|Hlast]);
    intros [= <-]; simpl; (split; [done|]);
    (split; [intros Hlt|split; [intros Heq|intros Hgt]]);
    try lia; rewrite <- ?app_assoc; simpl; auto.
Qed.

End RecycleFacts.

(** ** The properties at concrete inputs *)

Lemma drainQueue_fifo_witness :
  drainQueue 3 (fst (push {| lst := [sampleItem] |} (Some sampleEntry) [None]))
    = Some ({| lst := [] |}, [Some sampleEntry; Some sampleEntry; None]).
Proof.
  apply (drainQueue_fifo {| lst := [sampleItem] |} (Some sampleEntry) [None] 3).
  - by left.
  - vm_compute. lia.
  - vm_compute. lia.
Defined.

Lemma GetTag_known_names_witness :
  GetTag oneUpMuxer "default" = (0%N, None) /\
  GetTag oneUpMuxer "syslog" = (0%N, Some ErrTagNotFound).
Proof.
  split.
  - pose proof (GetTag_known_names (H := uint16Tags) checkNonEmpty oneUpMuxer
                  "default" (oneUpMuxer_reachable _)) as (_ & _ & Hid).
    apply Hid. by vm_compute.
  - pose proof (GetTag_known_names (H := uint16Tags) checkNonEmpty oneUpMuxer
                  "syslog" (oneUpMuxer_reachable _)) as (_ & Hnot & _).
    apply Hnot. vm_compute. by intros ?%list_elem_of_singleton.
Defined.

Lemma LookupTag_GetTag_witness :
  LookupTag oneUpMuxer (map_to_list (tagMap oneUpMuxer)) 0%N = ("default", true).
Proof.
  pose proof (LookupTag_GetTag (H := uint16Tags) checkNonEmpty oneUpMuxer
                (map_to_list (tagMap oneUpMuxer)) "default" 0%N
                (reflexivity _)) as (_ & _ & Hback).
  apply Hback.
  - apply oneUpMuxer_reachable.
  - by vm_compute.
  - by vm_compute.
Defined.

Lemma NegotiateTag_then_lookup_witness :
  exists t,
    tagMap (nr_mux syslogNegotiated) !! "syslog" = Some t /\
    GetTag (nr_mux syslogNegotiated) "syslog" = (t, None) /\
    NegotiateTag (H := uint16Tags) checkNonEmpty (nr_mux syslogNegotiated)
      "syslog" =
      Some {| nr_mux := nr_mux syslogNegotiated; nr_tg := t; nr_err := None;
              nr_calls := [] |} /\
    (nr_err syslogNegotiated = None -> nr_tg syslogNegotiated = t).
Proof.
  apply (NegotiateTag_then_lookup (H := uint16Tags) checkNonEmpty oneUpMuxer
           "syslog" syslogNegotiated).
  - reflexivity.
  - by vm_compute.
Defined.

Lemma NegotiateTag_keeps_ids_witness :
  tagMap (nr_mux syslogNegotiated) !! "default" = Some 0%N.
Proof.
  apply (NegotiateTag_keeps_ids (H := uint16Tags) checkNonEmpty oneUpMuxer
           "syslog" "default" syslogNegotiated 0%N).
  - apply oneUpMuxer_reachable.
  - by vm_compute.
  - by vm_compute.
Defined.

Lemma Start_once_witness :
  state startedMuxer = running /\
  Start startedMuxer = (startedMuxer, Some ErrNotReady).
Proof.
  pose proof (Start_once builtMuxer) as (_ & _ & Hok).
  destruct (Hok eq_refl) as (Hstate & _ & _ & _ & _ & _ & _ & _ & _ & Hagain).
  split; [exact Hstate | exact Hagain].
Defined.

Lemma accessors_after_Start_witness :
  Hot builtMuxer = ((-1)%Z, Some ErrNotRunning) /\
  Hot startedMuxer = (0%Z, None) /\
  Dead startedMuxer = (2%Z, None) /\
  Size startedMuxer = (2%Z, None).
Proof.
  pose proof (accessors_after_Start (H := uint16Tags) twoTargets
                (inl ErrNotReady) builtMuxer eq_refl)
    as (Hhot & _ & _ & _ & Hhot' & Hdead & Hsize); [by vm_compute|].
  split; [exact Hhot|]. split; [exact Hhot'|]. split; [exact Hdead|exact Hsize].
Defined.

Lemma counters_sum_witness :
  (connHot (fold_left runConnEvent [evHot; evHot; evDead] startedMuxer) +
   connDead (fold_left runConnEvent [evHot; evHot; evDead] startedMuxer)
   = 2)%Z.
Proof.
  pose proof (counters_sum builtMuxer [evHot; evHot; evDead] eq_refl eq_refl)
    as (Hsum & _); [by vm_compute|].
  exact Hsum.
Defined.

Lemma newUniformIngestMuxerEx_targets_witness :
  newUniformIngestMuxerEx (H := uint16Tags) uniformTargets (inl ErrNotReady)
    = inr builtMuxer /\
  Address <$> dests builtMuxer = ["10.0.0.1:4023"; "10.0.0.2:4023"].
Proof.
  assert (newUniformIngestMuxerEx (H := uint16Tags) uniformTargets
            (inl ErrNotReady) = inr builtMuxer) as Hnew by reflexivity.
  split; [exact Hnew|].
  pose proof (newUniformIngestMuxerEx_targets (H := uint16Tags) uniformTargets
                (inl ErrNotReady)) as (_ & _ & Hbuilt).
  destruct (Hbuilt builtMuxer Hnew) as (_ & _ & Haddr & _). exact Haddr.
Defined.


Lemma mergeCachedTags_spec_witness :
  ["a"; "b"] `prefix_of` mergeCachedTags ["a"; "b"] ["b"; "c"] /\
  NoDup (mergeCachedTags ["a"; "b"] ["b"; "c"]).
Proof.
  pose proof (mergeCachedTags_spec ["a"; "b"] ["b"; "c"]) as (Hpre & _ & Hnd).
  split; [exact Hpre|]. apply Hnd.
  apply NoDup_cons. split; [by intros ?%list_elem_of_singleton|].
  apply NoDup_singleton.
Defined.

Lemma newIngestMuxer_tags_witness :
  "default" ∈ tags builtMuxer /\ is_Some (tagMap builtMuxer !! "default").
Proof.
  pose proof (newIngestMuxer_tags (H := uint16Tags) twoTargets
                (inl ErrNotReady) builtMuxer eq_refl) as (Hin & _).
  apply Hin. by left.
Defined.


Lemma newTagTrans_unknown_name_witness :
  exists err,
    newTagTrans (tagMap startedMuxer) (map_to_list (tagMap startedMuxer))
      deafConn = Some (inl err).
Proof.
  destruct (newTagTrans (tagMap startedMuxer)
              (map_to_list (tagMap startedMuxer)) deafConn)
    as [[err | tr] |] eqn:Hnew.
  - by exists err.
  - exfalso.
    apply (newTagTrans_unknown_name (tagMap startedMuxer)
             (map_to_list (tagMap startedMuxer)) deafConn "default" 0%N
             (reflexivity _) eq_refl eq_refl tr).
    exact Hnew.
  - by vm_compute in Hnew.
Defined.


Lemma SyncContext_after_drain_witness :
  exists err,
    SyncContext oneUpMuxer []
      = SyncReturns err (CallSync <$> liveSlots 0 (igst oneUpMuxer)) /\
    (err = Some ErrAllConnsDown \/ err = None).
Proof.
  destruct (SyncContext_after_drain oneUpMuxer []) as (err & Hs & Hor & _).
  - intros [Hhot _]. discriminate Hhot.
  - reflexivity.
  - exists err. split; [exact Hs | exact Hor].
Defined.

Lemma Sync_errors_witness :
  SyncContext startedMuxer []
    = SyncContext startedMuxer
        [{| tick_ctxErr := Some ErrTimeout; tick_connHot := 0;
            tick_expired := true; tick_eLen := 0; tick_bLen := 0 |}].
Proof.
  pose proof (Sync_errors startedMuxer []) as (_ & Hsame & _).
  apply Hsame; reflexivity.
Defined.


Lemma gravwell_log_entries_witness :
  GravwellLog.Warn (H := uint16Tags) 1 startedMuxer 0 "ts" "line"
    = Done (startedMuxer, None) /\
  GravwellLog.Warn (H := uint16Tags) 2 startedMuxer 0 "ts" "line"
    = WriteEntry startedMuxer
        (Some (GravwellLog.logEntry (H := uint16Tags) 3 0 "ts" "line")).
Proof.
  split.
  - pose proof (gravwell_log_entries (H := uint16Tags) 1 startedMuxer 0
                  "ts" "line" []) as (_ & _ & Hquiet & _).
    apply Hquiet. lia.
  - pose proof (gravwell_log_entries (H := uint16Tags) 2 startedMuxer 0
                  "ts" "line" []) as (_ & _ & _ & _ & _ & Hwarn & _).
    apply Hwarn. lia.
Defined.



Lemma DeleteWriter_spec_witness :
  Log.DeleteWriter twoWriterLogger (Some 0)
    = Some ({| Log.wtrs := [Some 1]; Log.lvl := Log.INFO; Log.hot := true |},
            None).
Proof.
  pose proof (LogFacts.DeleteWriter_spec twoWriterLogger 0 eq_refl)
    as (Hdel & _).
  exact Hdel.
Defined.

Lemma level_names_witness :
  Log.GetLevel (fst (Log.SetLevel twoWriterLogger Log.ERROR)) = Log.ERROR /\
  Log.LevelFromString asciiToUpper "ERROR" = (Log.ERROR, None).
Proof.
  pose proof (LogFacts.level_names asciiToUpper twoWriterLogger Log.ERROR)
    as (_ & Hok & _).
  - intros s Hs.
    repeat (apply elem_of_cons in Hs as [-> | Hs]; [reflexivity|]).
    by apply elem_of_nil in Hs.
  - reflexivity.
  - destruct Hok as (Hget & Hread & _); [by vm_compute|].
    split; [exact Hget | exact Hread].
Defined.

Lemma clear_drains_witness :
  exists st,
    clear (H := uint16Tags) [7%N] (fun _ => None) {[ 0 := sampleEntry ]}
      [{| p_e := Some 0; p_ents := [] |}]
    = Some {| cr_store := st; cr_queue := []; cr_ok := true;
              cr_calls := [CallWriteEntry
                             {| TS := TS sampleEntry; Tag := 7%N;
                                SRC := SRC sampleEntry;
                                Data := Data sampleEntry |}] |}.
Proof.
  pose proof (clear_drains (H := uint16Tags) [7%N] (fun _ => None)
                {[ 0 := sampleEntry ]} [{| p_e := Some 0; p_ents := [] |}])
    as (_ & Hdrain).
  eexists. apply Hdrain.
  - done.
  - apply NoDup_singleton.
  - intros p Hp. apply list_elem_of_singleton in Hp as ->.
    exists sampleEntry, 7%N. split; reflexivity.
Defined.

Lemma clear_head_entry_failure_witness :
  clear (H := uint16Tags) [7%N] (fun _ => None) {[ 0 := strayEntry ]}
    [{| p_e := Some 0; p_ents := [] |}]
  = Some {| cr_store := {[ 0 := strayEntry ]};
            cr_queue := [{| p_e := Some 0; p_ents := [] |}];
            cr_ok := false; cr_calls := [] |}.
Proof.
  pose proof (clear_head_entry_failure (H := uint16Tags) [7%N] (fun _ => None)
                {[ 0 := strayEntry ]} 0 strayEntry [] [] 7%N eq_refl)
    as (Hfail & _); [vm_compute; lia|].
  apply Hfail. reflexivity.
Defined.

Lemma clear_batch_failure_witness :
  clear (H := uint16Tags) [7%N] (fun _ => None) {[ 0 := strayEntry ]}
    [{| p_e := None; p_ents := [None; Some 0] |}] = None.
Proof.
  pose proof (clear_batch_failure (H := uint16Tags) [7%N] (fun _ => None)
                {[ 0 := strayEntry ]} 0 strayEntry 7%N [None] [] [])
    as Hbatch.
  destruct Hbatch as (Hpanic & _).
  - apply NoDup_nil_2.
  - apply not_elem_of_nil.
  - intros q Hq. apply list_elem_of_singleton in Hq. discriminate Hq.
  - reflexivity.
  - reflexivity.
  - vm_compute. lia.
  - apply Hpanic. by left.
Defined.

Lemma recycle_single_entry_witness :
  (recycleEntries (H := uint16Tags) [7%N] false false false false recycleStart
     (Some 0) [] false = Some (Returned recycledStart) /\
   rs_store recycledStart !! 0 = Some recycledEntry /\
   Tag <$> rs_store recycledStart !! 0 = Some 0%N) /\
  (recycleEntries (H := uint16Tags) [7%N] true false false false
     recycleOverfull (Some 0) [] false = Some (Returned recycledOverfull) /\
   rs_store recycledOverfull !! 0 = Some recycledEntry /\
   rs_eChan recycledOverfull = rs_eChan recycleOverfull /\
   rs_queue recycledOverfull = rs_queue recycleOverfull).
Proof.
  assert (recycleEntries (H := uint16Tags) [7%N] false false false false
            recycleStart (Some 0) [] false = Some (Returned recycledStart))
    as Hrec by (by vm_compute).
  assert (recycleEntries (H := uint16Tags) [7%N] true false false false
            recycleOverfull (Some 0) [] false
          = Some (Returned recycledOverfull))
    as Hover by (by vm_compute).
  split.
  - split; [exact Hrec|].
    destruct (recycle_single_entry (H := uint16Tags) [7%N] false false false
                false recycleStart recycledStart 0 strayEntry false eq_refl
                Hrec) as (Hentry & Hzero & _).
    split; [exact Hentry|]. apply Hzero; [by vm_compute|].
    by intros ?%list_elem_of_singleton.
  - split; [exact Hover|].
    destruct (recycle_single_entry (H := uint16Tags) [7%N] true false false
                false recycleOverfull recycledOverfull 0 strayEntry false
                eq_refl Hover) as (Hentry & _).
    split; [exact Hentry|]. split; reflexivity.
Defined.

Lemma recycle_entry_with_batch_witness :
  recycleEntries (H := uint16Tags) [7%N] true false true true recycleFull
    (Some 0) [Some 1] false = Some (Returned recycledFull) /\
  (rs_queue recycledFull = [{| p_e := Some 0; p_ents := [Some 1] |}] /\
   chan_buf (rs_bChan recycledFull) = [[Some 1]] /\
   chan_cap (rs_bChan recycledFull) = 1
   \/
   rs_queue recycledFull = [{| p_e := Some 0; p_ents := [Some 1] |};
                            {| p_e := None; p_ents := [Some 1] |}] /\
   rs_bChan recycledFull = make_chan 1).
Proof.
  assert (recycleEntries (H := uint16Tags) [7%N] true false true true
            recycleFull (Some 0) [Some 1] false = Some (Returned recycledFull))
    as Hrec by (by vm_compute).
  split; [exact Hrec|].
  destruct (recycle_entry_with_batch (H := uint16Tags) [7%N] false true true
              recycleFull recycledFull 0 [Some 1] false)
    as (_ & Hheld & _).
  - done.
  - reflexivity.
  - exact Hrec.
  - apply Hheld. vm_compute. lia.
Defined.
